(** * golog: record assembly, masking and flushing

    A shallow embedding of [logger.go], of the context keys and of the
    package-level logger of the golog package, and the properties of its
    record assembly pipeline: context field extraction, sensitive-data
    masking, header redaction, the field lists handed to the two zap
    loggers, and [Sync]; then of the construction of the two loggers and of
    the life cycle of the package-level one.

    Go values of static type [interface{}] are embedded as the inductive
    [any]; Go maps are [gmap]s, so that they are unordered and compare by
    their entries, the nil map being [None].  Masking is embedded a second
    time over an explicit heap, where maps and slices are addresses, to
    state what it writes. *)

From Stdlib Require Import ZArith Ascii String List.
From stdpp Require Import gmap strings list fin_maps.

Set Warnings "-register-all".
Set Default Proof Using "Type*".

Local Open Scope string_scope.
Local Open Scope Z_scope.
Local Open Scope list_scope.

(** ** Dynamic values *)

(** The dynamic values that reach the logger through an [interface{}]:
    what [json.Unmarshal] produces (nil, booleans, numbers, strings,
    [[]interface{}], [map[string]interface{}]), byte slices, errors, and a
    catch-all for every other dynamic type, which the program only ever
    passes along.  A number is kept as an integer: the program never looks
    inside one. *)
Inductive any : Type :=
| VNil
| VBool (b : bool)
| VNumber (n : Z)
| VString (s : string)
| VBytes (b : list Byte.byte)
| VSlice (v : list any)
| VMap (m : option (gmap string any))
| VError (msg : string)
| VOther (tag : string).

(** [map[string]interface{}]: [None] is the nil map. *)
Abbreviation gomap := (option (gmap string any)).

(** Reading a Go map: a nil map has no entry. *)
Definition index (m : gomap) (key : string) : option any :=
  match m with
  | None => None
  | Some entries => entries !! key
  end.

(** [[]byte(s)] and [string(b)]. *)
Definition bytes (s : string) : list Byte.byte := list_byte_of_string s.
Definition string_of_bytes (b : list Byte.byte) : string := string_of_list_byte b.

(** ** Packages outside the repository *)

(** [strings.ToLower] lowers an all-ASCII string byte by byte and sends any
    other string through [strings.Map(unicode.ToLower, s)], which depends on
    Go's Unicode tables. *)
Class Unicode := {
  Map_ToLower : string -> string
}.

(** [json.Unmarshal(data, &m)] for [m] of type [map[string]interface{}]:
    [None] when it returns an error, otherwise the decoded map, which can be
    the nil map. *)
Class JSON := {
  Unmarshal : list Byte.byte -> option gomap
}.

(** ** strings *)

Definition isASCIIbyte (c : ascii) : bool :=
  (N_of_ascii c <? 128)%N.

Definition lowerASCIIbyte (c : ascii) : ascii :=
  if ((65 <=? N_of_ascii c) && (N_of_ascii c <=? 90))%N
  then ascii_of_N (N_of_ascii c + 32)
  else c.

Fixpoint isASCII (s : string) : bool :=
  match s with
  | EmptyString => true
  | String c rest => isASCIIbyte c && isASCII rest
  end.

Fixpoint lowerASCII (s : string) : string :=
  match s with
  | EmptyString => EmptyString
  | String c rest => String (lowerASCIIbyte c) (lowerASCII rest)
  end.

Definition ToLower `{Unicode} (s : string) : string :=
  if isASCII s then lowerASCII s else Map_ToLower s.

Fixpoint Repeat (s : string) (count : nat) : string :=
  match count with
  | O => EmptyString
  | S n => String.append s (Repeat s n)
  end.

(** ** The masking policy *)

Definition SENSITIVE_HEADER : list string :=
  ["Authorization"; "Signature"; "Apikey"].

Definition SENSITIVE_ATTR : gmap string bool :=
  {[ "password" := true;
     "license" := true;
     "license_code" := true;
     "token" := true;
     "access_token" := true;
     "refresh_token" := true ]}.

Definition isSensitiveField `{Unicode} (key : string) : bool :=
  match SENSITIVE_ATTR !! ToLower key with
  | Some _ => true
  | None => false
  end.

(** ** Masking *)

(** The body of the loop of [maskFieldMap]: the value stored at
    [result[key]] for the entry [key, val] of the input.  The two recursive
    calls of the source are the two folds; [maskFieldMap] below is that fold
    behind the nil test. *)
Fixpoint maskEntry `{Unicode} (key : string) (val : any) {struct val} : any :=
  match val with
  | VMap v =>
      VMap (match v with
            | None => None
            | Some entries =>
                Some (map_fold (fun k x result => <[k := maskEntry k x]> result)
                               ∅ entries)
            end)
  | VSlice v =>
      VSlice (List.map
                (fun item =>
                   match item with
                   | VMap itemMap =>
                       VMap (match itemMap with
                             | None => None
                             | Some entries =>
                                 Some (map_fold
                                         (fun k x result => <[k := maskEntry k x]> result)
                                         ∅ entries)
                             end)
                   | _ => item
                   end) v)
  | _ => if isSensitiveField key then VString (Repeat "*" 5) else val
  end.

Definition maskFieldMap `{Unicode} (bodyMap : gomap) : gomap :=
  match bodyMap with
  | None => None
  | Some entries =>
      Some (map_fold (fun key val result => <[key := maskEntry key val]> result)
                     ∅ entries)
  end.

(** The element stored at [maskedArray[i]]. *)
Definition maskItem `{Unicode} (item : any) : any :=
  match item with
  | VMap itemMap => VMap (maskFieldMap itemMap)
  | _ => item
  end.

Definition maskField `{Unicode} `{JSON} (body : any) : any :=
  match body with
  | VNil => VNil
  | VBytes bodyByte =>
      if decide (length bodyByte = 0%nat) then VBytes bodyByte
      else match Unmarshal bodyByte with
           | None => VString (string_of_bytes bodyByte)
           | Some bodyMap => VMap (maskFieldMap bodyMap)
           end
  | VMap bodyMap => VMap (maskFieldMap bodyMap)
  | _ => body
  end.

Definition toJSON `{JSON} (object : any) : any :=
  match object with
  | VNil => VNil
  | VString w =>
      if decide (w = "") then VString w
      else match Unmarshal (bytes w) with
           | None => VString w
           | Some jsonobj => VMap jsonobj
           end
  | _ => object
  end.

(** ** Header redaction *)

(** [fasthttp.RequestHeader] with the three methods the model needs: [Del]
    and [Header], which [removeAuth] calls, and [Peek], through which the
    content of a collection is observed. *)
Class FastHTTP := {
  RequestHeader : Type;
  Del : string -> RequestHeader -> RequestHeader;
  Header : RequestHeader -> list Byte.byte;
  Peek : string -> RequestHeader -> list Byte.byte
}.

(** The contract of [Del] that header redaction relies on, [same_name]
    telling which names fasthttp takes for one header (its key
    normalisation): deleting a name empties every name it is identified
    with and leaves the value of every other name. *)
Class FastHTTPContract `{FastHTTP} := {
  same_name : string -> string -> bool;
  same_name_refl : forall k, same_name k k = true;
  Peek_Del : forall k k' h,
    Peek k' (Del k h) = if same_name k k' then [] else Peek k' h
}.

(** [net/textproto]: the bytes allowed in a header field name, and
    [CanonicalMIMEHeaderKey], which returns a name holding any other byte
    as it is and otherwise upper-cases the first letter and every letter
    after a hyphen and lower-cases the rest. *)
Definition validHeaderFieldByte (c : ascii) : bool :=
  let n := N_of_ascii c in
  ((48 <=? n) && (n <=? 57) || (65 <=? n) && (n <=? 90) || (97 <=? n) && (n <=? 122)
   || (n =? 33) || (n =? 35) || (n =? 36) || (n =? 37) || (n =? 38) || (n =? 39)
   || (n =? 42) || (n =? 43) || (n =? 45) || (n =? 46) || (n =? 94) || (n =? 95)
   || (n =? 96) || (n =? 124) || (n =? 126))%N.

Fixpoint validHeaderField (s : string) : bool :=
  match s with
  | EmptyString => true
  | String c rest => validHeaderFieldByte c && validHeaderField rest
  end.

Fixpoint canonicalMIMEHeaderKey (upper : bool) (s : string) : string :=
  match s with
  | EmptyString => EmptyString
  | String c rest =>
      let n := N_of_ascii c in
      let c' :=
        if (upper && (97 <=? n) && (n <=? 122))%N then ascii_of_N (n - 32)
        else if (negb upper && (65 <=? n) && (n <=? 90))%N then ascii_of_N (n + 32)
        else c in
      String c' (canonicalMIMEHeaderKey (N_of_ascii c' =? 45)%N rest)
  end.

Definition CanonicalMIMEHeaderKey (s : string) : string :=
  if validHeaderField s then canonicalMIMEHeaderKey true s else s.

(** [http.Header] is [map[string][]string]; a nil header behaves as the
    empty one under [Del] and under lookup. *)
Abbreviation HttpHeaderMap := (gmap string (list string)).

(** [http.Header.Del]. *)
Definition http_Del (key : string) (h : HttpHeaderMap) : HttpHeaderMap :=
  delete (CanonicalMIMEHeaderKey key) h.

(** The [interface{}] values that [removeAuth] tells apart: the two header
    collections and everything else. *)
Inductive iface `{FastHTTP} : Type :=
| FastHeader (h : RequestHeader)
| HttpHeader (h : HttpHeaderMap)
| Data (v : any).

(** [removeAuth]. The type assertion on [fasthttp.RequestHeader] copies the
    struct and the result is the header text of the copy; an [http.Header]
    is a map, so [Del] works on the caller's map and that map is returned. *)
Definition removeAuth `{FastHTTP} (header : iface) : iface :=
  match header with
  | FastHeader mapHeader =>
      Data (VString (string_of_bytes
                       (Header (fold_left (fun h val => Del val h) SENSITIVE_HEADER mapHeader))))
  | HttpHeader mapHeader =>
      HttpHeader (fold_left (fun h val => http_Del val h) SENSITIVE_HEADER mapHeader)
  | Data _ => header
  end.

(** ** Request context *)

(** The keys the program looks up in a [context.Context]: a value of the
    package's own type [contextKey], or a plain string. *)
Inductive ctxKey : Type :=
| contextKey (name : string)
| stringKey (name : string).

#[global] Instance ctxKey_eq_dec : EqDecision ctxKey.
Proof. solve_decision. Defined.

Definition TraceIDKey : ctxKey := contextKey "traceId".
Definition SrcIPKey : ctxKey := contextKey "srcIP".
Definition PortKey : ctxKey := contextKey "port".
Definition PathKey : ctxKey := contextKey "path".

(** A [context.Context] is its [Value] method; an absent key gives nil. *)
Definition Context : Type := ctxKey -> any.

Definition Background : Context := fun _ => VNil.

Definition WithValue (parent : Context) (key : ctxKey) (val : any) : Context :=
  fun k => if decide (k = key) then val else parent k.

Definition WithTraceID (ctx : Context) (traceID : string) : Context :=
  WithValue ctx TraceIDKey (VString traceID).
Definition WithSrcIP (ctx : Context) (srcIP : string) : Context :=
  WithValue ctx SrcIPKey (VString srcIP).
Definition WithPort (ctx : Context) (port : string) : Context :=
  WithValue ctx PortKey (VString port).
Definition WithPath (ctx : Context) (path : string) : Context :=
  WithValue ctx PathKey (VString path).

(** ** zap fields and entries *)

Module zap.
Inductive Field `{FastHTTP} : Type :=
| String (key : string) (val : string)
| Any (key : string) (val : iface)
| Uint64 (key : string) (val : Z)
| Int64 (key : string) (val : Z).

Definition Key `{FastHTTP} (f : Field) : string :=
  match f with
  | String key _ | Any key _ | Uint64 key _ | Int64 key _ => key
  end.

Inductive Level : Type :=
| DebugLevel | InfoLevel | WarnLevel | ErrorLevel | PanicLevel | FatalLevel.
End zap.

(** The type assertion [ctx.Value(key).(string)] followed by [v != ""]. *)
Definition nonEmptyString (v : any) : option string :=
  match v with
  | VString s => if decide (s = "") then None else Some s
  | _ => None
  end.

Definition populateFieldFromContext `{FastHTTP} (ctx : Context) : list zap.Field :=
  let fieldFromCtx := [] in
  let fieldFromCtx :=
    match nonEmptyString (ctx TraceIDKey) with
    | Some v => fieldFromCtx ++ [zap.String "traceId" v]
    | None =>
        match nonEmptyString (ctx (stringKey "traceId")) with
        | Some v => fieldFromCtx ++ [zap.String "traceId" v]
        | None => fieldFromCtx
        end
    end in
  let fieldFromCtx :=
    match nonEmptyString (ctx SrcIPKey) with
    | Some v => fieldFromCtx ++ [zap.String "srcIP" v]
    | None =>
        match nonEmptyString (ctx (stringKey "srcIP")) with
        | Some v => fieldFromCtx ++ [zap.String "srcIP" v]
        | None => fieldFromCtx
        end
    end in
  let fieldFromCtx :=
    match nonEmptyString (ctx PortKey) with
    | Some v => fieldFromCtx ++ [zap.String "port" v]
    | None =>
        match nonEmptyString (ctx (stringKey "port")) with
        | Some v => fieldFromCtx ++ [zap.String "port" v]
        | None => fieldFromCtx
        end
    end in
  let fieldFromCtx :=
    match nonEmptyString (ctx PathKey) with
    | Some v => fieldFromCtx ++ [zap.String "path" v]
    | None =>
        match nonEmptyString (ctx (stringKey "path")) with
        | Some v => fieldFromCtx ++ [zap.String "path" v]
        | None => fieldFromCtx
        end
    end in
  fieldFromCtx.

(** ** The logger *)

(** What one call of a zap logger method receives. *)
Record Entry `{FastHTTP} := {
  level : zap.Level;
  message : string;
  fields : list zap.Field
}.

(** A pointer to a [zap.Logger]: the two that [NewLogger] builds write [system.log] and
    [tdr.log]. *)
Inductive Logger : Type := system_log | tdr_log.

Record Log := {
  logger : Logger;
  loggerTDR : Logger
}.

(** Modelled from the spec: the struct [LogModel], declared outside
    [logger.go]; its fields are those [TDR] reads, plus [Path]. *)
Record LogModel `{FastHTTP} := {
  CorrelationID : string;
  Header_ : iface;
  Request : any;
  StatusCode : string;
  Method : string;
  Path : string;
  HttpStatus : Z;
  Response : any;
  ResponseTime : Z;
  Error_ : any;
  OtherData : any
}.

(** [time.Duration] counts nanoseconds in an int64; [Milliseconds] divides
    by 10^6, truncating toward zero. *)
Definition Milliseconds (d : Z) : Z := Z.quot d 1000000.

(** A Go [error]: nil, or an error and its message. As an [interface{}]
    it is nil or a value whose dynamic type is not [string]. *)
Definition error : Type := option string.

Definition any_of_error (err : error) : any :=
  match err with
  | None => VNil
  | Some msg => VError msg
  end.

(** The calls the program makes on its zap loggers, oldest first. *)
Inductive call `{FastHTTP} : Type :=
| LogCall (lg : Logger) (e : Entry)
| SyncCall (lg : Logger).

(** What the [Sync] method of a zap logger answers, given the logger and
    the calls made before it. *)
Class Zap `{FastHTTP} := {
  Sync_error : Logger -> list call -> error
}.

(** How a method ends: it returns, or zap ends the process ([Fatal]) or
    panics ([Panic]) after it has taken the entry. *)
Inductive outcome (A : Type) : Type :=
| Returns (a : A)
| Exits (code : Z)
| Panics (msg : string).
Arguments Returns {A} a.
Arguments Exits {A} code.
Arguments Panics {A} msg.

(** The methods run in a state monad over the calls made so far. *)
Definition IO `{FastHTTP} (A : Type) : Type := list call -> outcome A * list call.

Definition ret `{FastHTTP} {A} (a : A) : IO A := fun t => (Returns a, t).

Definition bind `{FastHTTP} {A B} (c : IO A) (k : A -> IO B) : IO B :=
  fun t =>
    match c t with
    | (Returns a, t') => k a t'
    | (Exits code, t') => (Exits code, t')
    | (Panics msg, t') => (Panics msg, t')
    end.

#[global] Instance IO_ret `{FastHTTP} : MRet IO := fun A a => ret a.
#[global] Instance IO_bind `{FastHTTP} : MBind IO := fun A B k c => bind c k.

Definition zap_Log `{FastHTTP} (lg : Logger) (lvl : zap.Level) (msg : string)
    (fs : list zap.Field) : IO unit :=
  fun t =>
    let t' := t ++ [LogCall lg {| level := lvl; message := msg; fields := fs |}] in
    match lvl with
    | zap.FatalLevel => (Exits 1, t')
    | zap.PanicLevel => (Panics msg, t')
    | _ => (Returns tt, t')
    end.

Definition zap_Sync `{Zap} (lg : Logger) : IO error :=
  fun t => (Returns (Sync_error lg t), t ++ [SyncCall lg]).

Definition Debug `{FastHTTP} (l : Log) (ctx : Context) (msg : string)
    (fields : list zap.Field) : IO unit :=
  let ctxField := populateFieldFromContext ctx in
  let fields := fields ++ ctxField in
  zap_Log (logger l) zap.DebugLevel msg fields.

Definition Info `{FastHTTP} (l : Log) (ctx : Context) (msg : string)
    (fields : list zap.Field) : IO unit :=
  let ctxField := populateFieldFromContext ctx in
  let fields := fields ++ ctxField in
  zap_Log (logger l) zap.InfoLevel msg fields.

Definition Warn `{FastHTTP} (l : Log) (ctx : Context) (msg : string)
    (fields : list zap.Field) : IO unit :=
  let ctxField := populateFieldFromContext ctx in
  let fields := fields ++ ctxField in
  zap_Log (logger l) zap.WarnLevel msg fields.

Definition Error `{FastHTTP} `{JSON} (l : Log) (ctx : Context) (msg : string)
    (err : error) (fields : list zap.Field) : IO unit :=
  let ctxField := populateFieldFromContext ctx in
  let fields := fields ++ ctxField in
  let fields := fields ++ [zap.Any "error" (Data (toJSON (any_of_error err)))] in
  zap_Log (logger l) zap.ErrorLevel msg fields.

Definition Fatal `{FastHTTP} `{JSON} (l : Log) (ctx : Context) (msg : string)
    (err : error) (fields : list zap.Field) : IO unit :=
  let ctxField := populateFieldFromContext ctx in
  let fields := fields ++ ctxField in
  let fields := fields ++ [zap.Any "error" (Data (toJSON (any_of_error err)))] in
  zap_Log (logger l) zap.FatalLevel msg fields.

Definition Panic `{FastHTTP} `{JSON} (l : Log) (ctx : Context) (msg : string)
    (err : error) (fields : list zap.Field) : IO unit :=
  let ctxField := populateFieldFromContext ctx in
  let fields := fields ++ ctxField in
  let fields := fields ++ [zap.Any "error" (Data (toJSON (any_of_error err)))] in
  zap_Log (logger l) zap.PanicLevel msg fields.

Definition TDR `{FastHTTP} `{Unicode} `{JSON} (l : Log) (ctx : Context)
    (log : LogModel) : IO unit :=
  let fields := populateFieldFromContext ctx in
  let fields := fields ++ [zap.String "correlationId" (CorrelationID log)] in
  let fields := fields ++ [zap.Any "header" (removeAuth (Header_ log))] in
  let fields := fields ++ [zap.Any "request" (Data (toJSON (maskField (Request log))))] in
  let fields := fields ++ [zap.String "statusCode" (StatusCode log)] in
  let fields := fields ++ [zap.String "method" (Method log)] in
  let fields := fields ++ [zap.Uint64 "httpStatus" (HttpStatus log)] in
  let fields := fields ++ [zap.Any "response" (Data (toJSON (maskField (Response log))))] in
  let fields := fields ++ [zap.Int64 "rt" (Milliseconds (ResponseTime log))] in
  let fields := fields ++ [zap.Any "error" (Data (toJSON (Error_ log)))] in
  let fields := fields ++ [zap.Any "otherData" (Data (toJSON (OtherData log)))] in
  zap_Log (loggerTDR l) zap.InfoLevel ":" fields.

Definition Sync `{Zap} (l : Log) : IO error :=
  err1 ← zap_Sync (logger l);
  err2 ← zap_Sync (loggerTDR l);
  match err1 with
  | Some _ => mret err1
  | None => mret err2
  end.

(** ** Reading the context *)

(** The type assertion [v, ok := x.(string)]. *)
Definition assertString (x : any) : string * bool :=
  match x with
  | VString v => (v, true)
  | _ => ("", false)
  end.

Definition GetTraceID (ctx : Context) : string * bool := assertString (ctx TraceIDKey).
Definition GetSrcIP (ctx : Context) : string * bool := assertString (ctx SrcIPKey).
Definition GetPort (ctx : Context) : string * bool := assertString (ctx PortKey).
Definition GetPath (ctx : Context) : string * bool := assertString (ctx PathKey).

(** ** Construction *)

(** [strings.HasSuffix] and [strings.TrimSuffix]. *)
Definition HasSuffix (s suffix : string) : bool :=
  bool_decide (String.length suffix <= String.length s)%nat
  && String.eqb (substring (String.length s - String.length suffix)
                           (String.length suffix) s) suffix.

Definition TrimSuffix (s suffix : string) : string :=
  if HasSuffix s suffix
  then substring 0 (String.length s - String.length suffix) s
  else s.

(** Modelled from the spec: the struct [Config], declared outside
    [logger.go]; its fields are those [NewLogger] reads. [LogLevel] is a
    [zapcore.Level], an int8. *)
Record Config := {
  App : string;
  AppVer : string;
  Env : string;
  FileLocation : string;
  FileTDRLocation : string;
  FileMaxSize : Z;
  FileMaxBackup : Z;
  FileMaxAge : Z;
  Stdout : bool;
  LogLevel : Z;
  VersionFilePath : string
}.

(** Modelled from the spec: the method [Validate] of [Config], declared
    outside [logger.go], which fills in defaults in place. It is kept
    open here: [NewLogger] is described for whatever it leaves in the
    configuration. [os.ReadFile] answers the content of a file, or an
    error. *)
Class OS := {
  Validate : Config -> Config;
  ReadFile : string -> option (list Byte.byte)
}.

Module lumberjack.
Record Logger := {
  Filename : string;
  MaxSize : Z;
  MaxBackups : Z;
  MaxAge : Z
}.
End lumberjack.

Module zapcore.
(** The values of the levels of zap. *)
Definition DebugLevel : Z := -1.
Definition InfoLevel : Z := 0.
Definition ErrorLevel : Z := 2.

(** An encoder configuration: the fields [NewLogger] sets, and the
    constructor of zap the rest of the settings comes from. *)
Inductive Preset : Type := Development | Production.

Inductive TimeEncoder : Type :=
| ISO8601TimeEncoder
| EpochTimeEncoder
| TimeEncoderOfLayout (layout : string).

Inductive LevelEncoder : Type :=
| CapitalLevelEncoder
| LowercaseLevelEncoder.

Record EncoderConfig := {
  rest : Preset;
  TimeKey : string;
  LevelKey : string;
  MessageKey : string;
  StacktraceKey : string;
  EncodeTime : TimeEncoder;
  EncodeLevel : LevelEncoder
}.

Inductive Encoder : Type :=
| NewJSONEncoder (cfg : EncoderConfig)
| NewConsoleEncoder (cfg : EncoderConfig).

(** Where a core writes: [zapcore.AddSync] of a rotating file or of
    [os.Stdout]. *)
Inductive WriteSyncer : Type :=
| AddSync_file (rotator : lumberjack.Logger)
| AddSync_Stdout.

Inductive Core : Type :=
| NewCore (enc : Encoder) (ws : WriteSyncer) (enab : Z)
| NewTee (cores : list Core).
End zapcore.

Definition NewDevelopmentEncoderConfig : zapcore.EncoderConfig :=
  {| zapcore.rest := zapcore.Development;
     zapcore.TimeKey := "T"; zapcore.LevelKey := "L";
     zapcore.MessageKey := "M"; zapcore.StacktraceKey := "S";
     zapcore.EncodeTime := zapcore.ISO8601TimeEncoder;
     zapcore.EncodeLevel := zapcore.CapitalLevelEncoder |}.

Definition NewProductionEncoderConfig : zapcore.EncoderConfig :=
  {| zapcore.rest := zapcore.Production;
     zapcore.TimeKey := "ts"; zapcore.LevelKey := "level";
     zapcore.MessageKey := "msg"; zapcore.StacktraceKey := "stacktrace";
     zapcore.EncodeTime := zapcore.EpochTimeEncoder;
     zapcore.EncodeLevel := zapcore.LowercaseLevelEncoder |}.

Definition RFC3339 : string := "2006-01-02T15:04:05Z07:00".

(** The options of [zap.New]. *)
Inductive zapOption : Type :=
| AddStacktrace (lvl : Z)
| AddCallerSkip (skip : Z).

(** What a [zap.Logger] is built from: its core, its options and the
    fields given to [With]. *)
Record zapLogger `{FastHTTP} := {
  core : zapcore.Core;
  options : list zapOption;
  withFields : list zap.Field
}.

Definition zap_New `{FastHTTP} (core : zapcore.Core) (options : list zapOption) : zapLogger :=
  {| core := core; options := options; withFields := [] |}.

Definition zap_With `{FastHTTP} (lg : zapLogger) (fields : list zap.Field) : zapLogger :=
  {| core := core lg; options := options lg; withFields := withFields lg ++ fields |}.

(** [NewLogger] returns the [Log] and what its two pointers point to. *)
Definition NewLogger `{FastHTTP} `{OS} (conf : Config) : Log * (Logger -> zapLogger) :=
  let conf := Validate conf in
  let rotator :=
    {| lumberjack.Filename := FileLocation conf ++ "/system.log";
       lumberjack.MaxSize := FileMaxSize conf;
       lumberjack.MaxBackups := FileMaxBackup conf;
       lumberjack.MaxAge := FileMaxAge conf |} in
  let rotatorTDR :=
    {| lumberjack.Filename := FileTDRLocation conf ++ "/tdr.log";
       lumberjack.MaxSize := FileMaxSize conf;
       lumberjack.MaxBackups := FileMaxBackup conf;
       lumberjack.MaxAge := FileMaxAge conf |} in
  let encoderConfig := NewDevelopmentEncoderConfig in
  let encoderConfig :=
    if decide (Env conf = "production") then NewProductionEncoderConfig else encoderConfig in
  let encoderConfig :=
    {| zapcore.rest := zapcore.rest encoderConfig;
       zapcore.TimeKey := "timestamp";
       zapcore.LevelKey := "logLevel";
       zapcore.MessageKey := "message";
       zapcore.StacktraceKey := "stacktrace";
       zapcore.EncodeTime := zapcore.TimeEncoderOfLayout RFC3339;
       zapcore.EncodeLevel := zapcore.CapitalLevelEncoder |} in
  let jsonEncoder := zapcore.NewJSONEncoder encoderConfig in
  let consoleEncoder := zapcore.NewConsoleEncoder encoderConfig in
  let logLevel := LogLevel conf in
  let logLevel := if decide (logLevel = 0) then zapcore.InfoLevel else logLevel in
  let core := zapcore.NewCore jsonEncoder (zapcore.AddSync_file rotator) logLevel in
  let coreTDR := zapcore.NewCore jsonEncoder (zapcore.AddSync_file rotatorTDR) logLevel in
  let '(core, coreTDR) :=
    if Stdout conf
    then (zapcore.NewTee
            [core; zapcore.NewCore consoleEncoder zapcore.AddSync_Stdout logLevel],
          zapcore.NewTee
            [coreTDR; zapcore.NewCore consoleEncoder zapcore.AddSync_Stdout logLevel])
    else (core, coreTDR) in
  let appVer := AppVer conf in
  let appVer :=
    if decide (VersionFilePath conf <> "")
    then match ReadFile (VersionFilePath conf) with
         | Some content =>
             let c := string_of_bytes content in
             TrimSuffix c (String "010" "")
         | None => appVer
         end
    else appVer in
  let logger :=
    zap_With (zap_New core [AddStacktrace zapcore.ErrorLevel; AddCallerSkip 2])
      [zap.String "app" (App conf); zap.String "appVer" appVer; zap.String "env" (Env conf)] in
  let loggerTDR :=
    zap_With (zap_New coreTDR [AddCallerSkip 2])
      [zap.String "app" (App conf); zap.String "appVer" appVer; zap.String "env" (Env conf)] in
  ({| logger := system_log; loggerTDR := tdr_log |},
   fun p => match p with system_log => logger | tdr_log => loggerTDR end).

(** The cores under a core, left to right. *)
Fixpoint leaves (c : zapcore.Core) : list (zapcore.Encoder * zapcore.WriteSyncer * Z) :=
  match c with
  | zapcore.NewCore enc ws enab => [(enc, ws, enab)]
  | zapcore.NewTee cores => flat_map leaves cores
  end.

(** ** The package-level logger *)

Module Singleton.

Module I.
(** The interface [LoggerInterface] of the package-level logger; a value
    of [L] is an implementation that is not nil. *)
Class LoggerInterface `{FastHTTP} (L : Type) := {
  WithContext : L -> Context -> option L;
  Debug : L -> string -> list zap.Field -> IO unit;
  Info : L -> string -> list zap.Field -> IO unit;
  Warn : L -> string -> list zap.Field -> IO unit;
  Error : L -> string -> error -> list zap.Field -> IO unit;
  Fatal : L -> string -> error -> list zap.Field -> IO unit;
  Panic : L -> string -> error -> list zap.Field -> IO unit;
  TDR : L -> LogModel -> IO unit;
  Sync : L -> IO error
}.
End I.

(** The package variables: whether [once] has run, and [singleton]. The
    lock [mu] has no part in a run of one goroutine. *)
Record package (L : Type) := {
  once : bool;
  singleton : option L
}.
Arguments once {L} _.
Arguments singleton {L} _.

Section functions.
Context `{FastHTTP} {L : Type} `{!I.LoggerInterface L}.
(** The constructor the package calls: it returns an implementation. *)
Variable NewLogger : Config -> L.

(** The package variables when the program starts. *)
Definition start : package L := {| once := false; singleton := None |}.

Definition Load (config : Config) (s : package L) : option L * package L :=
  let s :=
    if once s then s
    else {| once := true; singleton := Some (NewLogger config) |} in
  (singleton s, s).

Definition Reset (s : package L) : package L :=
  {| once := false; singleton := None |}.

Definition WithContext (ctx : Context) (s : package L) : option L :=
  match singleton s with
  | Some l => I.WithContext l ctx
  | None => None
  end.

Definition Debug (msg : string) (fields : list zap.Field) (s : package L) : IO unit :=
  match singleton s with
  | Some l => I.Debug l msg fields
  | None => mret tt
  end.

Definition Info (msg : string) (fields : list zap.Field) (s : package L) : IO unit :=
  match singleton s with
  | Some l => I.Info l msg fields
  | None => mret tt
  end.

Definition Warn (msg : string) (fields : list zap.Field) (s : package L) : IO unit :=
  match singleton s with
  | Some l => I.Warn l msg fields
  | None => mret tt
  end.

Definition Error (msg : string) (err : error) (fields : list zap.Field)
    (s : package L) : IO unit :=
  match singleton s with
  | Some l => I.Error l msg err fields
  | None => mret tt
  end.

Definition Fatal (msg : string) (err : error) (fields : list zap.Field)
    (s : package L) : IO unit :=
  match singleton s with
  | Some l => I.Fatal l msg err fields
  | None => mret tt
  end.

Definition Panic (msg : string) (err : error) (fields : list zap.Field)
    (s : package L) : IO unit :=
  match singleton s with
  | Some l => I.Panic l msg err fields
  | None => mret tt
  end.

Definition TDR (model : LogModel) (s : package L) : IO unit :=
  match singleton s with
  | Some l => I.TDR l model
  | None => mret tt
  end.

Definition Sync (s : package L) : IO error :=
  match singleton s with
  | None => mret None
  | Some l => I.Sync l
  end.

(** The calls that write the package variables. *)
Inductive lifecycle : Type :=
| CallLoad (config : Config)
| CallReset.

Definition exec (s : package L) (call : lifecycle) : package L :=
  match call with
  | CallLoad config => (Load config s).2
  | CallReset => Reset s
  end.

(** The configuration in force after some calls: that of the first
    [Load] since the last [Reset], if there is one. *)
Definition in_force (calls : list lifecycle) : option Config :=
  fold_left (fun cur call =>
               match call, cur with
               | CallReset, _ => None
               | CallLoad config, None => Some config
               | CallLoad _, Some _ => cur
               end) calls None.

End functions.
End Singleton.

(** ** Masking on the heap *)

(** Go maps and slices are references: [maskFieldMap] receives the address
    of a map, reads what it reaches and writes with [result[key] = ...] and
    [maskedArray[i] = ...].  This second embedding keeps the store explicit,
    so that what the function writes can be stated; it is shown below to
    compute the same values as the first.  A run carries fuel for the depth
    of the recursion, since a map on the heap can contain itself. *)
Definition loc : Type := positive.

(** An [interface{}] as it is stored: a map or a slice is the address of
    its object ([None] for the nil map); a slice is taken to span its whole
    backing array. *)
Inductive hval : Type :=
| HNil
| HBool (b : bool)
| HNumber (n : Z)
| HString (s : string)
| HBytes (b : list Byte.byte)
| HSlice (l : loc)
| HMap (l : option loc)
| HError (msg : string)
| HOther (tag : string).

Inductive object : Type :=
| MapObj (entries : gmap string hval)
| ArrayObj (elems : list hval).

Abbreviation heap := (gmap loc object).

(** A computation on the heap; it answers [None] when it is out of fuel or
    when an address does not hold the object its type promises. *)
Definition M (A : Type) : Type := heap -> option A * heap.

#[global] Instance M_ret : MRet M := fun A a σ => (Some a, σ).
#[global] Instance M_bind : MBind M := fun A B k c σ =>
  match c σ with
  | (Some a, σ') => k a σ'
  | (None, σ') => (None, σ')
  end.

Definition stuck {A} : M A := fun σ => (None, σ).

(** [make]: a new object at an address not in use. *)
Definition alloc (o : object) : M loc := fun σ =>
  let l := fresh (dom σ) in (Some l, <[l := o]> σ).

Definition read_map (l : loc) : M (gmap string hval) := fun σ =>
  match σ !! l with
  | Some (MapObj entries) => (Some entries, σ)
  | _ => (None, σ)
  end.

Definition read_array (l : loc) : M (list hval) := fun σ =>
  match σ !! l with
  | Some (ArrayObj elems) => (Some elems, σ)
  | _ => (None, σ)
  end.

(** [m[key] = v] *)
Definition store_key (l : loc) (key : string) (v : hval) : M unit := fun σ =>
  match σ !! l with
  | Some (MapObj entries) => (Some tt, <[l := MapObj (<[key := v]> entries)]> σ)
  | _ => (None, σ)
  end.

(** [a[i] = v] *)
Definition store_index (l : loc) (i : nat) (v : hval) : M unit := fun σ =>
  match σ !! l with
  | Some (ArrayObj elems) =>
      if decide (i < length elems)%nat
      then (Some tt, <[l := ArrayObj (<[i := v]> elems)]> σ)
      else (None, σ)
  | _ => (None, σ)
  end.

(** A [for ... range] loop over the items [xs], in order. *)
Fixpoint forM {A} (xs : list A) (body : A -> M unit) : M unit :=
  match xs with
  | [] => mret tt
  | x :: rest => _ ← body x; forM rest body
  end.

(** A loop that collects one result for each item, in order. *)
Definition mapM {A B} (f : A -> M B) : list A -> M (list B) :=
  fix go xs :=
    match xs with
    | [] => mret []
    | x :: rest => y ← f x; ys ← go rest; mret (y :: ys)
    end.

(** [json.Unmarshal] builds what it decodes out of new objects: [store v]
    lays the value [v] out in the heap and returns it as stored. *)
Fixpoint store (v : any) : M hval :=
  match v with
  | VNil => mret HNil
  | VBool b => mret (HBool b)
  | VNumber n => mret (HNumber n)
  | VString s => mret (HString s)
  | VBytes b => mret (HBytes b)
  | VSlice vs =>
      elems ← mapM store vs;
      a ← alloc (ArrayObj elems);
      mret (HSlice a)
  | VMap None => mret (HMap None)
  | VMap (Some m) =>
      entries ← map_fold (fun k x (acc : M (gmap string hval)) =>
                            es ← acc; hv ← store x; mret (<[k := hv]> es))
                         (mret ∅) m;
      a ← alloc (MapObj entries);
      mret (HMap (Some a))
  | VError msg => mret (HError msg)
  | VOther tag => mret (HOther tag)
  end.

Module Heap.

Section masking.
Context `{Unicode}.

(** The loop over a slice: [maskedArray[i]] for the element [item]. *)
Definition maskItem (maskFieldMap : option loc -> M (option loc))
    (maskedArray : loc) (i : nat) (item : hval) : M unit :=
  match item with
  | HMap itemMap =>
      r ← maskFieldMap itemMap;
      store_index maskedArray i (HMap r)
  | _ => store_index maskedArray i item
  end.

(** The loop over a map: [result[key]] for the entry [key, val]. *)
Definition maskEntry (maskFieldMap : option loc -> M (option loc))
    (result : loc) (key : string) (val : hval) : M unit :=
  match val with
  | HMap v =>
      r ← maskFieldMap v;
      store_key result key (HMap r)
  | HSlice v =>
      elems ← read_array v;
      maskedArray ← alloc (ArrayObj (replicate (length elems) HNil));
      _ ← forM (imap pair elems)
            (fun '(i, item) => maskItem maskFieldMap maskedArray i item);
      store_key result key (HSlice maskedArray)
  | _ =>
      if isSensitiveField key
      then store_key result key (HString (Repeat "*" 5))
      else store_key result key val
  end.

(** [maskFieldMap]. The entries are visited in the order of [map_to_list],
    Go leaving the order of a [range] over a map open; they are read once,
    before the loop, and every write of the loop is a [store_key] or a
    [store_index] below. *)
Fixpoint maskFieldMap (fuel : nat) (bodyMap : option loc) : M (option loc) :=
  match fuel with
  | O => stuck
  | S fuel' =>
      match bodyMap with
      | None => mret None
      | Some l =>
          entries ← read_map l;
          result ← alloc (MapObj ∅);
          _ ← forM (map_to_list entries)
                (fun '(key, val) => maskEntry (maskFieldMap fuel') result key val);
          mret (Some result)
      end
  end.

(** [maskField] on a stored value; what [json.Unmarshal] decodes is laid
    out by [store]. *)
Definition maskField `{JSON} (fuel : nat) (body : hval) : M hval :=
  match body with
  | HNil => mret HNil
  | HBytes bodyByte =>
      if decide (length bodyByte = 0%nat) then mret (HBytes bodyByte)
      else match Unmarshal bodyByte with
           | None => mret (HString (string_of_bytes bodyByte))
           | Some decoded =>
               stored ← store (VMap decoded);
               match stored with
               | HMap bodyMap =>
                   r ← maskFieldMap fuel bodyMap;
                   mret (HMap r)
               | _ => stuck
               end
           end
  | HMap bodyMap =>
      r ← maskFieldMap fuel bodyMap;
      mret (HMap r)
  | _ => mret body
  end.

End masking.

End Heap.

(** ** Instances for running the model *)

(** Small stand-ins for the outside packages, to evaluate the program on
    concrete inputs: keys are ASCII, the decoder knows a finite table of
    documents and rejects every other input, a fasthttp header is its list
    of lines, and a logger's [Sync] fails exactly when it is listed. *)
Module Stub.

(** JSON texts are spelled with a single quote for each double quote. *)
Fixpoint dq (s : string) : string :=
  match s with
  | EmptyString => EmptyString
  | String c rest =>
      String (if Ascii.eqb c "'"%char then "034"%char else c) (dq rest)
  end.

Definition unicode : Unicode := {| Map_ToLower := fun s => s |}.

Definition json (docs : list (string * gomap)) : JSON :=
  {| Unmarshal := fun data =>
       snd <$> List.find (fun doc => String.eqb (fst doc) (string_of_bytes data)) docs |}.

Definition peek (key : string) (h : list (string * string)) : list Byte.byte :=
  match List.find (fun line => String.eqb (fst line) key) h with
  | Some line => bytes (snd line)
  | None => []
  end.

Definition fasthttp : FastHTTP :=
  {| RequestHeader := list (string * string);
     Del := fun key h => List.filter (fun line => negb (String.eqb (fst line) key)) h;
     Header := fun h =>
       bytes (List.fold_right
                (fun line text =>
                   String.append (fst line)
                     (String.append ": " (String.append (snd line)
                        (String.append (String "013" (String "010" EmptyString)) text))))
                EmptyString h);
     Peek := peek |}.

Definition zap `{FastHTTP} (failing : list (Logger * string)) : Zap :=
  {| Sync_error := fun lg _ =>
       snd <$> List.find
                 (fun f => match fst f, lg with
                           | system_log, system_log | tdr_log, tdr_log => true
                           | _, _ => false
                           end) failing |}.

End Stub.

(** ** Sample inputs *)

Definition login_text : string := Stub.dq "{'password':'secret123'}".

Definition login_json : JSON :=
  Stub.json [(login_text, Some {[ "password" := VString "secret123" ]})].

Definition no_json : JSON := Stub.json [].

Definition code_text : string := Stub.dq "{'code':1}".

Definition code_json : JSON :=
  Stub.json [(code_text, Some {[ "code" := VNumber 1 ]})].

Definition bearer_request : list (string * string) :=
  [("Authorization", "Bearer abc"); ("Accept", "text/html")].

(** A body with a slice that holds a map, and the same body on the heap:
    the map at address 1, the backing array at 2, the inner map at 3. *)
Definition login_body : gomap :=
  Some {[ "password" := VString "secret";
          "items" := VSlice [VMap (Some {[ "token" := VString "abc" ]}); VNumber 7] ]}.

Definition login_heap : heap :=
  {[ 1%positive := MapObj {[ "password" := HString "secret"; "items" := HSlice 2%positive ]};
     2%positive := ArrayObj [HMap (Some 3%positive); HNumber 7];
     3%positive := MapObj {[ "token" := HString "abc" ]} ]}.

(** A map that contains itself. *)
Definition self_heap : heap :=
  {[ 1%positive := MapObj {[ "self" := HMap (Some 1%positive) ]} ]}.


(** An [http.Header] with a credential. *)
Definition bearer_header : HttpHeaderMap :=
  {[ "Authorization" := ["Bearer abc"]; "Accept" := ["text/html"] ]}.

(** A context with a trace id under the plain string key. *)
Definition legacy_context : Context := WithValue Background (stringKey "traceId") (VString "t-0").

(** Modelled from the spec: [Validate] as the tests of the repository show
    it, the transaction-log location defaulting to the system-log location;
    the files are those of the table. *)
Definition test_os (files : list (string * list Byte.byte)) : OS :=
  {| Validate conf :=
       if decide (FileTDRLocation conf = "")
       then {| App := App conf; AppVer := AppVer conf; Env := Env conf;
               FileLocation := FileLocation conf; FileTDRLocation := FileLocation conf;
               FileMaxSize := FileMaxSize conf; FileMaxBackup := FileMaxBackup conf;
               FileMaxAge := FileMaxAge conf; Stdout := Stdout conf;
               LogLevel := LogLevel conf; VersionFilePath := VersionFilePath conf |}
       else conf;
     ReadFile path := snd <$> List.find (fun file => String.eqb (fst file) path) files |}.

(** The configuration of [TestVersionFilePath]. *)
Definition version_config : Config :=
  {| App := "testapp"; AppVer := "1.0.0"; Env := "development";
     FileLocation := "/tmp/log"; FileTDRLocation := "";
     FileMaxSize := 10; FileMaxBackup := 3; FileMaxAge := 7;
     Stdout := false; LogLevel := 0; VersionFilePath := "/tmp/log/version.txt" |}.

(** ** Notions of the statements *)

(** The rule for one context slot, in the words of the specification: the
    lookups of the slot are tried in order, typed key first, and the first
    one that yields a non-empty string gives the value. *)
Definition slot_value (ctx : Context) (name : string) : option string :=
  head (omap nonEmptyString [ctx (contextKey name); ctx (stringKey name)]).

(** The number of nodes of a value; it bounds the depth of the calls of
    [maskFieldMap] on it. *)
Fixpoint any_size (v : any) : nat :=
  match v with
  | VSlice l => S (list_sum (List.map any_size l))
  | VMap (Some entries) =>
      S (map_fold (fun _ x n => (any_size x + n)%nat) 0%nat entries)
  | _ => 1%nat
  end.

(** [keeps σ0 c]: run from any heap that extends [σ0], the computation [c]
    ends in a heap that still extends [σ0]; it has overwritten no object of
    [σ0], whether or not it ran to its end. *)
Definition keeps (σ0 : heap) {A} (c : M A) : Prop :=
  forall σ : heap, σ0 ⊆ σ -> σ0 ⊆ snd (c σ).

(** A recursive call that overwrites nothing of the heap it starts from. *)
Definition framed (rec : option loc -> M (option loc)) : Prop :=
  forall bodyMap (σ : heap), σ ⊆ snd (rec bodyMap σ).

(** [repr ρ hv v]: in the heap [ρ], the stored value [hv] unfolds to the
    value [v]. Only a heap without cycles under [hv] unfolds to a value. *)
Inductive repr (ρ : heap) : hval -> any -> Prop :=
| repr_nil : repr ρ HNil VNil
| repr_bool b : repr ρ (HBool b) (VBool b)
| repr_number n : repr ρ (HNumber n) (VNumber n)
| repr_string s : repr ρ (HString s) (VString s)
| repr_bytes b : repr ρ (HBytes b) (VBytes b)
| repr_slice l elems vs :
    ρ !! l = Some (ArrayObj elems) ->
    Forall2 (repr ρ) elems vs ->
    repr ρ (HSlice l) (VSlice vs)
| repr_nil_map : repr ρ (HMap None) (VMap None)
| repr_map l (entries : gmap string hval) (m : gmap string any) :
    ρ !! l = Some (MapObj entries) ->
    dom entries = dom m ->
    (forall k hv v, entries !! k = Some hv -> m !! k = Some v -> repr ρ hv v) ->
    repr ρ (HMap (Some l)) (VMap (Some m))
| repr_error msg : repr ρ (HError msg) (VError msg)
| repr_other tag : repr ρ (HOther tag) (VOther tag).

(** [ρ'] extends [ρ] with objects at addresses that [σ] does not use. *)
Definition adds_new (σ ρ ρ' : heap) : Prop :=
  ρ ⊆ ρ' /\ forall l, is_Some (σ !! l) -> ρ !! l = None -> ρ' !! l = None.

(** What a run of [maskFieldMap] on the heap owes to [maskFieldMap] on
    values, for bodies of size at most [fuel]: started in a heap [σ] of
    which the part [ρ] unfolds the body, it ends, and the map it returns
    unfolds to the masked body in [ρ] extended with new objects only. *)
Definition refines_at `{Unicode} (fuel : nat) (rec : option loc -> M (option loc)) : Prop :=
  forall bm hbm (ρ σ : heap),
    (any_size (VMap bm) <= fuel)%nat -> ρ ⊆ σ -> repr ρ (HMap hbm) (VMap bm) ->
    exists r σ' ρ',
      rec hbm σ = (Some r, σ') /\ ρ' ⊆ σ' /\ adds_new σ ρ ρ' /\
      repr ρ' (HMap r) (VMap (maskFieldMap bm)).

(** ** Headers by reference *)

(** An [http.Header] is a map, so a variable of that type holds the
    address of the map: [removeAuth] on the header at address [header]. *)
Definition removeAuth_http (header : loc) (σ : gmap loc HttpHeaderMap)
  : loc * gmap loc HttpHeaderMap :=
  (header,
   fold_left (fun σ val => alter (http_Del val) header σ) SENSITIVE_HEADER σ).

(** ** Notions of the further statements *)

(** The loop of [maskFieldMap] when [range] yields the entries in the order
    of the list [entries]. *)
Definition maskFieldMap_loop `{Unicode} (entries : list (string * any)) : gmap string any :=
  fold_left (fun result entry => <[entry.1 := maskEntry entry.1 entry.2]> result) entries ∅.

(** A value that [maskFieldMap] does not walk into. *)
Definition is_scalar (val : any) : Prop :=
  match val with
  | VMap _ | VSlice _ => False
  | _ => True
  end.

(** [masked_map m]: in [m] and in every mapping that masking visits under
    it, an entry with a sensitive key holds a mapping, a sequence or the
    mask. *)
Inductive masked_map `{Unicode} : gomap -> Prop :=
| masked_nil : masked_map None
| masked_entries (entries : gmap string any) :
    (forall key val, entries !! key = Some val -> masked_entry key val) ->
    masked_map (Some entries)
with masked_entry `{Unicode} : string -> any -> Prop :=
| masked_in_map key bodyMap : masked_map bodyMap -> masked_entry key (VMap bodyMap)
| masked_in_slice key v :
    (forall itemMap, In (VMap itemMap) v -> masked_map itemMap) ->
    masked_entry key (VSlice v)
| masked_scalar key val :
    is_scalar val ->
    (isSensitiveField key = true -> val = VString "*****") ->
    masked_entry key val.


(** The four slots: the name of the field, the setter and the getter. *)
Definition context_slots
  : list (string * (Context -> string -> Context) * (Context -> string * bool)) :=
  [("traceId", WithTraceID, GetTraceID);
   ("srcIP", WithSrcIP, GetSrcIP);
   ("port", WithPort, GetPort);
   ("path", WithPath, GetPath)].

(** The fields of one slot. *)
Definition slot_fields `{FastHTTP} (ctx : Context) (name : string) : list zap.Field :=
  match slot_value ctx name with
  | Some v => [zap.String name v]
  | None => []
  end.

#[global] Instance Logger_eq_dec : EqDecision Logger.
Proof. solve_decision. Defined.

(** The entries a logger has taken in a run. *)
Definition written `{FastHTTP} (lg : Logger) (t : list call) : list Entry :=
  omap (fun c =>
          match c with
          | LogCall lg' e => if decide (lg' = lg) then Some e else None
          | SyncCall _ => None
          end) t.

(** * Properties *)

(** ** Induction on dynamic values *)

Lemma any_size_entry (entries : gmap string any) k x :
  entries !! k = Some x ->
  (any_size x <= map_fold (fun _ x n => (any_size x + n)%nat) 0%nat entries)%nat.
Proof.
  revert k x.
  induction entries as [|i y m Hi Hfi IH] using map_first_key_ind; intros k x Hk.
  - by rewrite lookup_empty in Hk.
  - rewrite map_fold_insert_first_key by done.
    destruct (decide (i = k)) as [->|Hne].
    + rewrite lookup_insert_eq in Hk. injection Hk as ->. lia.
    + rewrite lookup_insert_ne in Hk by done. specialize (IH _ _ Hk). lia.
Qed.

Lemma any_size_elem (l : list any) x :
  In x l -> (any_size x <= list_sum (List.map any_size l))%nat.
Proof.
  induction l as [|y l IH]; simpl; [done|].
  intros [->|Hin]; [lia|]. specialize (IH Hin). lia.
Qed.

(** Induction on [any], with the hypothesis at hand for every element of a
    slice and every entry of a map. *)
Lemma any_ind' (P : any -> Prop) :
  P VNil ->
  (forall b, P (VBool b)) ->
  (forall n, P (VNumber n)) ->
  (forall s, P (VString s)) ->
  (forall b, P (VBytes b)) ->
  (forall l, Forall P l -> P (VSlice l)) ->
  P (VMap None) ->
  (forall entries : gmap string any,
      map_Forall (fun _ x => P x) entries -> P (VMap (Some entries))) ->
  (forall msg, P (VError msg)) ->
  (forall tag, P (VOther tag)) ->
  forall v, P v.
Proof.
  intros HNil HBool HNum HStr HBytes HSlice HMapNil HMap HErr HOther v.
  remember (any_size v) as n eqn:Hn. revert v Hn.
  induction (lt_wf n) as [n _ IH]. intros v ->.
  destruct v as [| | | | |l|[entries|]| |]; auto.
  - apply HSlice, Forall_forall. intros x Hx.
    apply (IH (any_size x)); [|done]. simpl.
    apply list_elem_of_In, any_size_elem in Hx. lia.
  - apply HMap. intros k x Hk.
    apply (IH (any_size x)); [|done]. simpl.
    apply any_size_entry in Hk. lia.
Qed.

(** ** The loop that fills a fresh map *)

(** [result := make(...); for k, x := range m { result[k] = f(k, x) }] leaves
    at each key of [m] the image of its value, and nothing else, whatever
    the order of the visit. *)
Lemma lookup_fold_insert {A B} (f : string -> A -> B) (m : gmap string A) i :
  map_fold (fun k x (result : gmap string B) => <[k := f k x]> result) ∅ m !! i
  = f i <$> m !! i.
Proof.
  induction m as [|k x m Hk Hfk IH] using map_first_key_ind.
  - by rewrite map_fold_empty, !lookup_empty.
  - rewrite map_fold_insert_first_key by done.
    destruct (decide (k = i)) as [->|Hne].
    + by rewrite !lookup_insert_eq.
    + by rewrite !lookup_insert_ne.
Qed.

Section masking.
Context `{Unicode}.

Lemma maskEntry_map key v : maskEntry key (VMap v) = VMap (maskFieldMap v).
Proof. by destruct v. Qed.

Lemma maskEntry_slice key v : maskEntry key (VSlice v) = VSlice (List.map maskItem v).
Proof. reflexivity. Qed.

Lemma index_maskFieldMap bodyMap key :
  index (maskFieldMap bodyMap) key = maskEntry key <$> index bodyMap key.
Proof.
  destruct bodyMap as [entries|]; simpl; [|done].
  apply lookup_fold_insert.
Qed.

Lemma maskEntry_idem key val :
  maskEntry key (maskEntry key val) = maskEntry key val.
Proof.
  revert key. induction val as [| | | | |l IH| |entries IH| |] using any_ind';
    intros key; try (simpl; destruct (isSensitiveField key) eqn:E; simpl; rewrite ?E; done).
  - rewrite !maskEntry_slice. f_equal.
    rewrite List.map_map. apply map_ext_Forall.
    eapply Forall_impl; [exact IH|]. intros x Hx. simpl in Hx.
    destruct x as [| | | | | |v| |]; try reflexivity.
    specialize (Hx key). rewrite !maskEntry_map in Hx. exact Hx.
  - rewrite !maskEntry_map. simpl. do 2 f_equal.
    apply map_eq. intros i.
    rewrite !lookup_fold_insert.
    destruct (entries !! i) as [x|] eqn:Hi; simpl; [|done].
    f_equal. exact (IH i x Hi i).
Qed.

Lemma maskFieldMap_idem bodyMap :
  maskFieldMap (maskFieldMap bodyMap) = maskFieldMap bodyMap.
Proof.
  pose proof (maskEntry_idem "" (VMap bodyMap)) as Hi.
  rewrite !maskEntry_map in Hi. by injection Hi.
Qed.
End masking.

(** ** Masking a mapping *)

(** Keys are matched whatever their case, and whatever Go's Unicode tables
    say, as long as they are ASCII. *)
Example isSensitiveField_case `{Unicode} :
  isSensitiveField "PassWord" = true /\
  isSensitiveField "ACCESS_TOKEN" = true /\
  isSensitiveField "username" = false /\
  isSensitiveField "passwords" = false.
Proof. repeat split; vm_compute; reflexivity. Qed.

(** The body of the test [TestMaskField]. *)
Example TestMaskField `{Unicode} `{JSON} :
  maskField (VMap (Some {[ "username" := VString "john";
                           "password" := VString "secret123";
                           "token" := VString "abc123";
                           "data" := VMap (Some {[ "nested" := VString "value" ]}) ]}))
  = VMap (Some {[ "username" := VString "john";
                  "password" := VString "*****";
                  "token" := VString "*****";
                  "data" := VMap (Some {[ "nested" := VString "value" ]}) ]}).
Proof. vm_compute. reflexivity. Qed.

Section C1_example.
#[local] Existing Instance Stub.unicode.

(** C1, as stated, fails: a sensitive key whose value is a mapping keeps a
    mapping (masked inside) and is not replaced by the mask. *)
Lemma sensitive_key_with_map_value_not_replaced :
  let body : gomap := Some {[ "password" := VMap (Some {[ "hint" := VString "x" ]}) ]} in
  isSensitiveField "password" = true /\
  index (maskFieldMap body) "password" = Some (VMap (Some {[ "hint" := VString "x" ]})) /\
  index (maskFieldMap body) "password" <> Some (VString "*****").
Proof.
  assert (index (maskFieldMap (Some {[ "password" := VMap (Some {[ "hint" := VString "x" ]}) ]}))
                "password"
          = Some (VMap (Some {[ "hint" := VString "x" ]}))) as E by (vm_compute; reflexivity).
  cbv zeta. rewrite E. split; [vm_compute; reflexivity|]. split; [reflexivity|discriminate].
Qed.

(** A sequence under a sensitive key is walked, not replaced: its strings
    are kept and its mappings masked; a sequence inside a sequence is kept
    as it is. *)
Example sensitive_key_with_slice_value :
  index (maskFieldMap
           (Some {[ "token" := VSlice [VString "abc";
                                       VMap (Some {[ "token" := VString "def" ]});
                                       VSlice [VMap (Some {[ "token" := VString "ghi" ]})]] ]}))
        "token"
  = Some (VSlice [VString "abc";
                  VMap (Some {[ "token" := VString "*****" ]});
                  VSlice [VMap (Some {[ "token" := VString "ghi" ]})]]).
Proof. vm_compute. reflexivity. Qed.
End C1_example.

(** C1, amended: [maskFieldMap] keeps the keys of its input and, at each
    key, masks a mapping value recursively, masks the mapping elements of a
    sequence value and passes its other elements through, and treats any
    other value by its key: the mask ["*****"] when the key, lowered, is one
    of the six sensitive names, the value itself otherwise. *)
Theorem maskFieldMap_entries `{Unicode} (bodyMap : gomap) (key : string) :
  index (maskFieldMap bodyMap) key =
    match index bodyMap key with
    | None => None
    | Some (VMap v) => Some (VMap (maskFieldMap v))
    | Some (VSlice v) => Some (VSlice (List.map maskItem v))
    | Some val => Some (if isSensitiveField key then VString "*****" else val)
    end
  /\ (isSensitiveField key = true <->
      In (ToLower key)
         ["password"; "license"; "license_code"; "token"; "access_token"; "refresh_token"]).
Proof.
  split.
  - rewrite index_maskFieldMap.
    destruct (index bodyMap key) as [[| | | | | |v| |]|]; reflexivity.
  - unfold isSensitiveField, SENSITIVE_ATTR. generalize (ToLower key) as k. intros k.
    rewrite !lookup_insert, lookup_singleton. simpl.
    repeat case_decide; subst; simpl.
    all: try (split; [intros _; tauto | reflexivity]).
    split; [discriminate | tauto].
Qed.

(** ** Masking a payload *)

Section C2_example.
#[local] Existing Instance Stub.unicode.

#[local] Existing Instance login_json.

(** C2 on the code: a string holding JSON object text is returned as it
    is, so that [toJSON] then expands it with the password in clear; the
    same text as bytes is parsed and masked. *)
Lemma maskField_string_not_masked :
  Unmarshal (bytes login_text) = Some (Some {[ "password" := VString "secret123" ]}) /\
  maskField (VString login_text) = VString login_text /\
  toJSON (maskField (VString login_text))
    = VMap (Some {[ "password" := VString "secret123" ]}) /\
  maskField (VBytes (bytes login_text))
    = VMap (Some {[ "password" := VString "*****" ]}).
Proof. repeat split; vm_compute; reflexivity. Qed.
End C2_example.

(** What [maskField] does with bytes that decode: the masked mapping. *)
Lemma maskField_bytes_object `{Unicode} `{JSON} (b : list Byte.byte) (bodyMap : gomap) :
  b <> [] -> Unmarshal b = Some bodyMap ->
  maskField (VBytes b) = VMap (maskFieldMap bodyMap).
Proof.
  intros Hb Hm. unfold maskField.
  destruct (decide (length b = 0%nat)) as [E|_].
  - by destruct b.
  - by rewrite Hm.
Qed.

(** A string is never decoded by [maskField]. *)
Lemma maskField_string `{Unicode} `{JSON} (s : string) :
  maskField (VString s) = VString s.
Proof. reflexivity. Qed.

Section C3_example.
#[local] Existing Instance Stub.unicode.
#[local] Existing Instance no_json.

(** C3, as stated, fails: bytes that do not decode come back as a string,
    not as the bytes that were passed in. *)
Lemma maskField_bad_bytes_become_string :
  Unmarshal (bytes "not json") = None /\
  maskField (VBytes (bytes "not json")) = VString "not json" /\
  maskField (VBytes (bytes "not json")) <> VBytes (bytes "not json").
Proof. split; [reflexivity|]. split; [reflexivity|discriminate]. Qed.
End C3_example.

(** C3, amended: bytes that do not decode come back with their content
    unchanged, as a string (an empty byte input comes back as it is), and a
    string always comes back as it is; [maskField] is total, it never
    raises. *)
Theorem maskField_unparseable `{Unicode} `{JSON} (b : list Byte.byte) :
  Unmarshal b = None ->
  maskField (VBytes b)
    = (if decide (b = []) then VBytes b else VString (string_of_bytes b))
  /\ bytes (string_of_bytes b) = b
  /\ forall s, maskField (VString s) = VString s.
Proof.
  intros Hb. split; [|split; [apply list_byte_of_string_of_list_byte|reflexivity]].
  unfold maskField. destruct b as [|c b]; [reflexivity|].
  simpl. by rewrite Hb.
Qed.

Lemma maskField_unparseable_witness :
  @Unmarshal (Stub.json []) (bytes "not json") = None /\
  @maskField Stub.unicode (Stub.json []) (VBytes (bytes "not json"))
    = VString (string_of_bytes (bytes "not json")).
Proof.
  split; [reflexivity|].
  exact (proj1 (@maskField_unparseable Stub.unicode (Stub.json []) (bytes "not json")
                  eq_refl)).
Defined.

(** C4: masking is idempotent, on mappings and on every other payload. *)
Theorem maskField_idempotent `{Unicode} `{JSON} (bodyMap : gomap) :
  maskField (maskField (VMap bodyMap)) = maskField (VMap bodyMap)
  /\ maskFieldMap (maskFieldMap bodyMap) = maskFieldMap bodyMap
  /\ forall body, maskField (maskField body) = maskField body.
Proof.
  split; [|split].
  - simpl. by rewrite maskFieldMap_idem.
  - apply maskFieldMap_idem.
  - intros [| | | |b| |m| |]; try reflexivity.
    + destruct b as [|c b]; [reflexivity|].
      change (maskField (VBytes (c :: b)))
        with (match Unmarshal (c :: b) with
              | Some m => VMap (maskFieldMap m)
              | None => VString (string_of_bytes (c :: b))
              end).
      destruct (Unmarshal (c :: b)); simpl; [|reflexivity].
      by rewrite maskFieldMap_idem.
    + simpl. by rewrite maskFieldMap_idem.
Qed.

(** ** Header redaction *)

Lemma Peek_fold_Del `{FastHTTPContract} (names : list string) (name : string) h :
  Peek name (fold_left (fun h val => Del val h) names h)
  = if existsb (fun s => same_name s name) names then [] else Peek name h.
Proof.
  revert h. induction names as [|s names IH]; intros h; simpl; [done|].
  rewrite IH, Peek_Del.
  destruct (same_name s name); simpl; [|done].
  by destruct (existsb _ names).
Qed.

Lemma lookup_fold_http_Del (names : list string) (name : string) (h : HttpHeaderMap) :
  fold_left (fun h val => http_Del val h) names h !! name
  = if existsb (fun s => String.eqb (CanonicalMIMEHeaderKey s) name) names
    then None else h !! name.
Proof.
  revert h. induction names as [|s names IH]; intros h; simpl; [done|].
  rewrite IH. unfold http_Del.
  destruct (String.eqb_spec (CanonicalMIMEHeaderKey s) name) as [->|Hne]; simpl.
  - rewrite lookup_delete_eq. by destruct (existsb _ names).
  - by rewrite lookup_delete_ne.
Qed.

(** The three sensitive names are in canonical form. *)
Lemma SENSITIVE_HEADER_canonical :
  List.map CanonicalMIMEHeaderKey SENSITIVE_HEADER = SENSITIVE_HEADER.
Proof. reflexivity. Qed.

(** C5: [removeAuth] deletes the three sensitive names and leaves every
    other header as it was, in an [http.Header] (which it returns) and in a
    [fasthttp.RequestHeader] (whose header text it returns); any other
    value is returned unchanged. *)
Theorem removeAuth_redacts `{FastHTTPContract} (header : iface) :
  match header with
  | HttpHeader h =>
      exists h' : HttpHeaderMap,
        removeAuth header = HttpHeader h' /\
        (forall name, In name SENSITIVE_HEADER -> h' !! name = None) /\
        (forall name, ~ In name SENSITIVE_HEADER -> h' !! name = h !! name)
  | FastHeader h =>
      exists h' : RequestHeader,
        removeAuth header = Data (VString (string_of_bytes (Header h'))) /\
        (forall name, In name SENSITIVE_HEADER -> Peek name h' = []) /\
        (forall name,
            (forall s, In s SENSITIVE_HEADER -> same_name s name = false) ->
            Peek name h' = Peek name h)
  | Data v => removeAuth header = Data v
  end.
Proof.
  destruct header as [h|h|v]; [| |reflexivity].
  - eexists. split; [reflexivity|]. split; intros name Hname.
    + rewrite Peek_fold_Del.
      assert (existsb (fun s => same_name s name) SENSITIVE_HEADER = true) as ->; [|done].
      apply existsb_exists. exists name. split; [done|apply same_name_refl].
    + rewrite Peek_fold_Del.
      assert (existsb (fun s => same_name s name) SENSITIVE_HEADER = false) as ->; [|done].
      simpl. rewrite !Hname; simpl; tauto.
  - eexists. split; [reflexivity|]. split; intros name Hname.
    + rewrite lookup_fold_http_Del.
      assert (existsb (fun s => String.eqb (CanonicalMIMEHeaderKey s) name) SENSITIVE_HEADER
              = true) as ->; [|done].
      apply existsb_exists. exists name. split; [done|].
      simpl in Hname. destruct Hname as [<-|[<-|[<-|[]]]]; reflexivity.
    + rewrite lookup_fold_http_Del.
      assert (existsb (fun s => String.eqb (CanonicalMIMEHeaderKey s) name) SENSITIVE_HEADER
              = false) as ->; [|done].
      apply not_true_is_false. intros (s & Hs & Hsn)%existsb_exists.
      apply String.eqb_eq in Hsn. subst name. apply Hname.
      simpl in Hs. destruct Hs as [<-|[<-|[<-|[]]]]; simpl; tauto.
Qed.

Lemma Stub_peek_filter (k k' : string) (h : list (string * string)) :
  Stub.peek k' (List.filter (fun line => negb (String.eqb (fst line) k)) h)
  = if String.eqb k k' then [] else Stub.peek k' h.
Proof.
  unfold Stub.peek. induction h as [|[n v] h IH]; simpl.
  - by destruct (String.eqb k k').
  - destruct (String.eqb_spec n k) as [->|Hnk]; simpl.
    + rewrite IH. destruct (String.eqb_spec k k') as [->|Hkk']; [done|done].
    + destruct (String.eqb_spec n k') as [->|Hnk']; simpl.
      * destruct (String.eqb_spec k k') as [->|]; [done|reflexivity].
      * exact IH.
Qed.

(** The list-of-lines header meets the contract, names being compared as
    they are. *)
Lemma Stub_contract : @FastHTTPContract Stub.fasthttp.
Proof.
  refine (@Build_FastHTTPContract Stub.fasthttp String.eqb String.eqb_refl _).
  intros k k' h. apply Stub_peek_filter.
Defined.

Section C5_example.
#[local] Existing Instance Stub.fasthttp.
#[local] Existing Instance Stub_contract.

Example removeAuth_bearer_request :
  removeAuth (FastHeader bearer_request)
  = Data (VString (string_of_bytes (bytes "Accept: text/html" ++ [Byte.x0d; Byte.x0a]))).
Proof. reflexivity. Qed.

Lemma removeAuth_redacts_witness :
  exists h' : RequestHeader,
    removeAuth (FastHeader bearer_request) = Data (VString (string_of_bytes (Header h'))) /\
    (forall name, In name SENSITIVE_HEADER -> Peek name h' = []) /\
    (forall name,
        (forall s, In s SENSITIVE_HEADER -> same_name s name = false) ->
        Peek name h' = Peek name bearer_request).
Proof. exact (removeAuth_redacts (FastHeader bearer_request)). Defined.
End C5_example.

(** ** Context fields *)

(** C6: the extracted fields are, for the four slots in the order trace-id,
    source-ip, port, path, the value found by the typed key or else by the
    string key of the same name, under the fixed key of the slot; a slot
    with no non-empty string under either key gives no field. *)
Theorem populateFieldFromContext_slots `{FastHTTP} (ctx : Context) :
  populateFieldFromContext ctx
  = omap (fun name => zap.String name <$> slot_value ctx name)
         ["traceId"; "srcIP"; "port"; "path"].
Proof.
  unfold populateFieldFromContext, slot_value, TraceIDKey, SrcIPKey, PortKey, PathKey.
  cbn [omap list_omap head fmap option_fmap option_map].
  repeat match goal with
         | |- context [nonEmptyString ?v] => destruct (nonEmptyString v)
         end; reflexivity.
Qed.

Section C6_example.
Context `{FastHTTP}.

(** A context carrying only a trace id yields the single field [traceId]. *)
Example populateFieldFromContext_trace_only :
  populateFieldFromContext (WithTraceID Background "trace-123")
  = [zap.String "traceId" "trace-123"].
Proof. reflexivity. Qed.

(** The typed key wins over the string key, and an empty typed value falls
    back on the string key. *)
Example populateFieldFromContext_precedence :
  populateFieldFromContext
    (WithPort (WithValue (WithValue (WithPath Background "") (stringKey "path") (VString "/old"))
                         (stringKey "port") (VString "80")) "8080")
  = [zap.String "port" "8080"; zap.String "path" "/old"].
Proof. reflexivity. Qed.
End C6_example.

(** ** Records *)


(** [Debug], [Info] and [Warn] hand the system logger the caller's fields
    followed by the context fields. *)
Lemma standard_record `{FastHTTP} (l : Log) (ctx : Context) (msg : string)
    (fs : list zap.Field) (t : list call) :
  let entry lvl :=
    LogCall (logger l)
      {| level := lvl; message := msg; fields := fs ++ populateFieldFromContext ctx |} in
  Debug l ctx msg fs t = (Returns tt, t ++ [entry zap.DebugLevel]) /\
  Info l ctx msg fs t = (Returns tt, t ++ [entry zap.InfoLevel]) /\
  Warn l ctx msg fs t = (Returns tt, t ++ [entry zap.WarnLevel]).
Proof. repeat split. Qed.

(** [toJSON] expands strings only: an error comes back as it is. *)
Lemma toJSON_error `{JSON} (err : error) :
  toJSON (any_of_error err) = any_of_error err.
Proof. by destruct err. Qed.

Section C8_example.
#[local] Existing Instance Stub.fasthttp.

#[local] Existing Instance code_json.

(** C8, as stated, fails: an error whose message is valid JSON is not
    expanded, although the same text as a string would be. *)
Lemma Error_json_message_not_expanded :
  let l := {| logger := system_log; loggerTDR := tdr_log |} in
  toJSON (VString code_text) = VMap (Some {[ "code" := VNumber 1 ]}) /\
  Error l Background "failed" (Some code_text) [] []
  = (Returns tt,
     [LogCall system_log
        {| level := zap.ErrorLevel;
           message := "failed";
           fields := [zap.Any "error" (Data (VError code_text))] |}]) /\
  zap.Any "error" (Data (VError code_text))
  <> zap.Any "error" (Data (VMap (Some {[ "code" := VNumber 1 ]}))).
Proof. split; [vm_compute; reflexivity|]. split; [reflexivity|discriminate]. Qed.
End C8_example.

(** C8, amended: [Error], [Fatal] and [Panic] hand the system logger one
    entry whose fields are the caller's fields, then the context fields,
    then one field ["error"] holding the error as it was given (nil for a
    nil error): the JSON-unwrap rule leaves every error value alone. *)
Theorem Error_record `{FastHTTP} `{JSON} (l : Log) (ctx : Context) (msg : string)
    (err : error) (fs : list zap.Field) (t : list call) :
  let entry lvl :=
    LogCall (logger l)
      {| level := lvl;
         message := msg;
         fields := fs ++ populateFieldFromContext ctx
                   ++ [zap.Any "error" (Data (any_of_error err))] |} in
  Error l ctx msg err fs t = (Returns tt, t ++ [entry zap.ErrorLevel]) /\
  Fatal l ctx msg err fs t = (Exits 1, t ++ [entry zap.FatalLevel]) /\
  Panic l ctx msg err fs t = (Panics msg, t ++ [entry zap.PanicLevel]) /\
  toJSON (any_of_error err) = any_of_error err.
Proof.
  unfold Error, Fatal, Panic, zap_Log. rewrite toJSON_error, <- !app_assoc.
  repeat split; reflexivity.
Qed.

(** ** Flushing *)

(** C9: [Sync] calls [Sync] on the system logger and then on the
    transaction logger, whatever the first call answers, and returns the
    first error: that of the system logger if it failed, otherwise the
    answer of the transaction logger. *)
Theorem Sync_flushes_both `{Zap} (l : Log) (t : list call) :
  Sync l t
  = (Returns match Sync_error (logger l) t with
             | Some e => Some e
             | None => Sync_error (loggerTDR l) (t ++ [SyncCall (logger l)])
             end,
     t ++ [SyncCall (logger l); SyncCall (loggerTDR l)]).
Proof.
  unfold Sync, zap_Sync, mbind, IO_bind, bind, mret, IO_ret, ret. simpl.
  rewrite <- app_assoc. simpl.
  by destruct (Sync_error (logger l) t).
Qed.

Section C9_example.
#[local] Existing Instance Stub.fasthttp.

(** The system logger fails to flush: the transaction logger is flushed
    all the same, and the system logger's error is returned. *)
Example Sync_system_failure :
  @Sync _ (Stub.zap [(system_log, "disk full")])
        {| logger := system_log; loggerTDR := tdr_log |} []
  = (Returns (Some "disk full"), [SyncCall system_log; SyncCall tdr_log]).
Proof. reflexivity. Qed.

(** Only the transaction logger fails: its error is returned. *)
Example Sync_transaction_failure :
  @Sync _ (Stub.zap [(tdr_log, "read-only")])
        {| logger := system_log; loggerTDR := tdr_log |} []
  = (Returns (Some "read-only"), [SyncCall system_log; SyncCall tdr_log]).
Proof. reflexivity. Qed.
End C9_example.

(** ** What masking writes *)

Lemma keeps_ret σ0 {A} (a : A) : keeps σ0 (mret a).
Proof. intros σ Hσ. exact Hσ. Qed.

Lemma keeps_stuck σ0 {A} : keeps σ0 (@stuck A).
Proof. intros σ Hσ. exact Hσ. Qed.

Lemma keeps_bind σ0 {A B} (c : M A) (k : A -> M B) :
  keeps σ0 c -> (forall a, keeps σ0 (k a)) -> keeps σ0 (c ≫= k).
Proof.
  intros Hc Hk σ Hσ. unfold mbind, M_bind.
  specialize (Hc σ Hσ). destruct (c σ) as [[a|] σ']; simpl in *; [|done].
  by apply Hk.
Qed.

Lemma keeps_read_map σ0 l : keeps σ0 (read_map l).
Proof. intros σ Hσ. unfold read_map. by destruct (σ !! l) as [[]|]. Qed.

Lemma keeps_read_array σ0 l : keeps σ0 (read_array l).
Proof. intros σ Hσ. unfold read_array. by destruct (σ !! l) as [[]|]. Qed.

Lemma not_in_heap_lookup (σ : heap) l : l ∉ dom σ -> σ !! l = None.
Proof. apply not_elem_of_dom. Qed.

Lemma lookup_None_weaken (ρ σ : heap) l : ρ ⊆ σ -> σ !! l = None -> ρ !! l = None.
Proof.
  intros Hρσ Hσ. destruct (ρ !! l) as [o|] eqn:E; [|done].
  eapply lookup_weaken in E; [|exact Hρσ]. congruence.
Qed.

(** The address [alloc] returns is new, so the rest of the computation may
    rely on its being outside [σ0]. *)
Lemma keeps_alloc_bind σ0 {B} (o : object) (k : loc -> M B) :
  (forall l, σ0 !! l = None -> keeps σ0 (k l)) -> keeps σ0 (alloc o ≫= k).
Proof.
  intros Hk σ Hσ. unfold mbind, M_bind, alloc.
  assert (σ !! fresh (dom σ) = None) as Hfresh
    by apply not_in_heap_lookup, is_fresh.
  assert (σ0 !! fresh (dom σ) = None) as Hfresh0 by by eapply lookup_None_weaken.
  apply Hk; [done|]. by apply insert_subseteq_r.
Qed.

(** Writing into an object that is not one of [σ0]. *)
Lemma keeps_store_key σ0 l key v :
  σ0 !! l = None -> keeps σ0 (store_key l key v).
Proof.
  intros Hl σ Hσ. unfold store_key.
  destruct (σ !! l) as [[entries|elems]|]; simpl; try done.
  by apply insert_subseteq_r.
Qed.

Lemma keeps_store_index σ0 l i v :
  σ0 !! l = None -> keeps σ0 (store_index l i v).
Proof.
  intros Hl σ Hσ. unfold store_index.
  destruct (σ !! l) as [[entries|elems]|]; simpl; try done.
  case_decide; simpl; [|done]. by apply insert_subseteq_r.
Qed.

Lemma keeps_forM σ0 {A} (xs : list A) (body : A -> M unit) :
  (forall x, keeps σ0 (body x)) -> keeps σ0 (forM xs body).
Proof.
  intros Hbody. induction xs as [|x xs IH]; simpl.
  - apply keeps_ret.
  - apply keeps_bind; [apply Hbody|]. intros _. exact IH.
Qed.

Create HintDb keeps.
#[local] Hint Resolve keeps_ret keeps_stuck keeps_read_map keeps_read_array
  keeps_store_key keeps_store_index : keeps.

Lemma Forall2_impl_Forall {A B} (P : B -> Prop) (R R' : A -> B -> Prop) xs ys :
  Forall P ys -> (forall x y, P y -> R x y -> R' x y) ->
  Forall2 R xs ys -> Forall2 R' xs ys.
Proof.
  intros HP Himp Hf. induction Hf as [|x y xs ys Hxy _ IH]; constructor.
  - apply Himp; [|done]. by inversion HP.
  - apply IH. by inversion HP.
Qed.

(** A value unfolded in a heap is unfolded in every heap that extends it. *)
Lemma repr_mono (ρ ρ' : heap) hv v : ρ ⊆ ρ' -> repr ρ hv v -> repr ρ' hv v.
Proof.
  intros Hρ. revert hv.
  induction v as [| | | | |vs IH| |m IH| |] using any_ind'; intros hv Hr;
    inversion Hr; subst; try constructor.
  - econstructor; [by eapply lookup_weaken|].
    eapply Forall2_impl_Forall; [exact IH| |eassumption].
    intros x y Hy. apply Hy.
  - econstructor; [by eapply lookup_weaken|done|].
    intros k hv v Hk Hm. eapply IH; [done|]. eauto.
Qed.

Lemma keeps_alloc σ0 o : keeps σ0 (alloc o).
Proof.
  intros σ Hσ. unfold alloc. simpl.
  apply insert_subseteq_r; [|done].
  eapply lookup_None_weaken; [exact Hσ|]. apply not_in_heap_lookup, is_fresh.
Qed.

Lemma keeps_mapM σ0 {A B} (f : A -> M B) xs :
  Forall (fun x => keeps σ0 (f x)) xs -> keeps σ0 (mapM f xs).
Proof.
  induction 1 as [|x xs Hx _ IH]; simpl; [apply keeps_ret|].
  apply keeps_bind; [done|]. intros y.
  apply keeps_bind; [done|]. intros ys. apply keeps_ret.
Qed.

Lemma keeps_store σ0 v : keeps σ0 (store v).
Proof.
  induction v as [| | | | |vs IH| |m IH| |] using any_ind'; simpl;
    try apply keeps_ret.
  - apply keeps_bind; [by apply keeps_mapM|]. intros elems.
    apply keeps_bind; [apply keeps_alloc|]. intros a. apply keeps_ret.
  - apply keeps_bind.
    + induction m as [|k x m Hk Hfk IHm] using map_first_key_ind.
      * rewrite map_fold_empty. apply keeps_ret.
      * rewrite map_fold_insert_first_key by done.
        apply map_Forall_insert in IH as [Hx Hm]; [|done].
        apply keeps_bind; [by apply IHm|]. intros es.
        apply keeps_bind; [done|]. intros hv. apply keeps_ret.
    + intros entries. apply keeps_bind; [apply keeps_alloc|]. intros a. apply keeps_ret.
Qed.

Section frame.
Context `{Unicode}.

Lemma framed_keeps rec σ0 bodyMap : framed rec -> keeps σ0 (rec bodyMap).
Proof. intros Hrec σ Hσ. etrans; [exact Hσ|apply Hrec]. Qed.

Lemma keeps_maskItem rec σ0 maskedArray i item :
  framed rec -> σ0 !! maskedArray = None ->
  keeps σ0 (Heap.maskItem rec maskedArray i item).
Proof.
  intros Hrec Hl. destruct item; simpl; auto with keeps.
  apply keeps_bind; [by apply framed_keeps|]. auto with keeps.
Qed.

Lemma keeps_maskEntry rec σ0 result key val :
  framed rec -> σ0 !! result = None ->
  keeps σ0 (Heap.maskEntry rec result key val).
Proof.
  intros Hrec Hl. destruct val; simpl;
    try (destruct (isSensitiveField key); solve [auto with keeps]).
  - apply keeps_bind; [auto with keeps|]. intros elems.
    apply keeps_alloc_bind. intros maskedArray Hnew.
    apply keeps_bind; [|auto with keeps].
    apply keeps_forM. intros [i item]. by apply keeps_maskItem.
  - apply keeps_bind; [by apply framed_keeps|]. auto with keeps.
Qed.

Lemma maskFieldMap_framed fuel : framed (Heap.maskFieldMap fuel).
Proof.
  induction fuel as [|fuel IH]; intros bodyMap σ; simpl; [done|].
  destruct bodyMap as [l|]; [|done].
  assert (keeps σ
            (entries ← read_map l;
             result ← alloc (MapObj ∅);
             _ ← forM (map_to_list entries)
                   (fun '(key, val) =>
                      Heap.maskEntry (Heap.maskFieldMap fuel) result key val);
             mret (Some result))) as Hkeeps; [|by apply Hkeeps].
  apply keeps_bind; [auto with keeps|]. intros entries.
  apply keeps_alloc_bind. intros result Hnew.
  apply keeps_bind; [|auto with keeps].
  apply keeps_forM. intros [key val]. by apply keeps_maskEntry.
Qed.

(** The map that [maskFieldMap] returns is a new one. *)
Lemma maskFieldMap_fresh fuel bodyMap (σ : heap) result :
  fst (Heap.maskFieldMap fuel bodyMap σ) = Some (Some result) -> σ !! result = None.
Proof.
  destruct fuel as [|fuel]; simpl; [done|].
  destruct bodyMap as [l|]; [|done].
  unfold mbind, M_bind, read_map.
  destruct (σ !! l) as [[entries|?]|]; simpl; try done.
  destruct (forM _ _ _) as [[[]|] σ']; simpl; [|done].
  intros [= <-]. apply not_in_heap_lookup, is_fresh.
Qed.

Lemma maskField_framed `{JSON} fuel body (σ : heap) :
  σ ⊆ snd (Heap.maskField fuel body σ).
Proof.
  assert (keeps σ (Heap.maskField fuel body)) as Hkeeps; [|by apply Hkeeps].
  assert (forall bodyMap,
             keeps σ (r ← Heap.maskFieldMap fuel bodyMap; mret (HMap r))) as Hmap.
  { intros bodyMap. apply keeps_bind; [apply framed_keeps, maskFieldMap_framed|].
    intros r. apply keeps_ret. }
  destruct body; try apply keeps_ret; [|apply Hmap].
  unfold Heap.maskField. case_decide; [apply keeps_ret|].
  destruct (Unmarshal b) as [decoded|]; [|apply keeps_ret].
  apply keeps_bind; [apply keeps_store|].
  intros []; try apply keeps_stuck. apply Hmap.
Qed.

(** C10: masking overwrites nothing. Every object of the heap that
    [maskFieldMap] or [maskField] is called on, the input map and the maps
    and arrays under it among them, is the same object after the call, for
    every amount of fuel (so also when the run does not end); a body that
    the input unfolded to before the call is the body it unfolds to after
    it; and the map that [maskFieldMap] returns is a new object. *)
Theorem masking_keeps_input `{JSON} fuel (σ : heap) :
  (forall bodyMap l o,
      σ !! l = Some o -> snd (Heap.maskFieldMap fuel bodyMap σ) !! l = Some o) /\
  (forall body l o,
      σ !! l = Some o -> snd (Heap.maskField fuel body σ) !! l = Some o) /\
  (forall bodyMap body,
      repr σ (HMap bodyMap) body ->
      repr (snd (Heap.maskFieldMap fuel bodyMap σ)) (HMap bodyMap) body /\
      repr (snd (Heap.maskField fuel (HMap bodyMap) σ)) (HMap bodyMap) body) /\
  (forall bodyMap result,
      fst (Heap.maskFieldMap fuel bodyMap σ) = Some (Some result) -> σ !! result = None).
Proof.
  split; [|split; [|split]].
  - intros bodyMap l o Hl. eapply lookup_weaken; [exact Hl|]. apply maskFieldMap_framed.
  - intros body l o Hl. eapply lookup_weaken; [exact Hl|]. apply maskField_framed.
  - intros bodyMap body Hr. split; (eapply repr_mono; [|exact Hr]).
    + apply maskFieldMap_framed.
    + apply maskField_framed.
  - intros bodyMap. apply maskFieldMap_fresh.
Qed.
End frame.

Section heap_examples.
#[local] Existing Instance Stub.unicode.

Example maskFieldMap_login_heap :
  Heap.maskFieldMap 2 (Some 1%positive) login_heap
  = (Some (Some 4%positive),
     {[ 4%positive := MapObj {[ "password" := HString "*****"; "items" := HSlice 5%positive ]};
        5%positive := ArrayObj [HMap (Some 6%positive); HNumber 7];
        6%positive := MapObj {[ "token" := HString "*****" ]} ]} ∪ login_heap).
Proof. vm_compute. reflexivity. Qed.

(** A map that contains itself: the run does not end, and has overwritten
    nothing when the fuel runs out. *)
Example maskFieldMap_self_heap :
  fst (Heap.maskFieldMap 8 (Some 1%positive) self_heap) = None /\
  snd (Heap.maskFieldMap 8 (Some 1%positive) self_heap) !! 1%positive
  = self_heap !! 1%positive.
Proof. split; vm_compute; reflexivity. Qed.

(** Bytes are decoded into maps of their own, which are masked in turn. *)
Example maskField_login_bytes :
  @Heap.maskField _ login_json 1 (HBytes (bytes login_text)) ∅
  = (Some (HMap (Some 2%positive)),
     {[ 1%positive := MapObj {[ "password" := HString "secret123" ]};
        2%positive := MapObj {[ "password" := HString "*****" ]} ]}).
Proof. vm_compute. reflexivity. Qed.
End heap_examples.

(** ** The run on the heap and the function on values *)

Lemma adds_new_refl σ ρ : adds_new σ ρ ρ.
Proof. split; [done|auto]. Qed.

Lemma adds_new_trans (σ σ1 ρ ρ1 ρ2 : heap) :
  (forall l, is_Some (σ !! l) -> is_Some (σ1 !! l)) ->
  adds_new σ ρ ρ1 -> adds_new σ1 ρ1 ρ2 -> adds_new σ ρ ρ2.
Proof.
  intros Hσ [H1 H1'] [H2 H2']. split; [by etrans|].
  intros l Hl Hρ. apply H2'; [by apply Hσ|by apply H1'].
Qed.

Lemma is_Some_weaken (σ σ' : heap) l : σ ⊆ σ' -> is_Some (σ !! l) -> is_Some (σ' !! l).
Proof. intros Hσ [o Ho]. exists o. by eapply lookup_weaken. Qed.

Lemma run_bind {A B} (c : M A) (k : A -> M B) σ a σ' :
  c σ = (Some a, σ') -> (c ≫= k) σ = k a σ'.
Proof. intros E. unfold mbind, M_bind. by rewrite E. Qed.

Lemma run_read_map (σ : heap) l entries :
  σ !! l = Some (MapObj entries) -> read_map l σ = (Some entries, σ).
Proof. intros E. unfold read_map. by rewrite E. Qed.

Lemma run_read_array (σ : heap) l elems :
  σ !! l = Some (ArrayObj elems) -> read_array l σ = (Some elems, σ).
Proof. intros E. unfold read_array. by rewrite E. Qed.

Lemma run_store_key (σ : heap) l key v entries :
  σ !! l = Some (MapObj entries) ->
  store_key l key v σ = (Some tt, <[l := MapObj (<[key := v]> entries)]> σ).
Proof. intros E. unfold store_key. by rewrite E. Qed.

Lemma run_store_index (σ : heap) l i v elems :
  σ !! l = Some (ArrayObj elems) -> (i < length elems)%nat ->
  store_index l i v σ = (Some tt, <[l := ArrayObj (<[i := v]> elems)]> σ).
Proof. intros E Hi. unfold store_index. rewrite E. by rewrite decide_True. Qed.

Lemma store_extends v (σ : heap) : σ ⊆ snd (store v σ).
Proof. by apply keeps_store. Qed.

Lemma mapM_store_extends vs (σ : heap) : σ ⊆ snd (mapM store vs σ).
Proof.
  apply keeps_mapM; [|done]. apply Forall_forall. intros v _. apply keeps_store.
Qed.

(** Every value can be laid out, in any heap, and is then what the stored
    value unfolds to. *)
Lemma store_repr v (σ : heap) :
  exists hv σ', store v σ = (Some hv, σ') /\ repr σ' hv v.
Proof.
  revert σ. induction v as [| | | | |vs IH| |m IH| |] using any_ind'; intros σ;
    try (eexists _, σ; split; [reflexivity|constructor]).
  - assert (exists hvs σ1, mapM store vs σ = (Some hvs, σ1) /\ Forall2 (repr σ1) hvs vs)
      as (hvs & σ1 & Hrun & Hrepr).
    { clear -IH. revert σ. induction IH as [|v vs Hv _ IHvs]; intros σ.
      - exists [], σ. split; [reflexivity|constructor].
      - destruct (Hv σ) as (hv & σ1 & Hrun1 & Hr1).
        destruct (IHvs σ1) as (hvs & σ2 & Hrun2 & Hr2).
        exists (hv :: hvs), σ2. split.
        + cbn [mapM]. erewrite run_bind; [|exact Hrun1].
          erewrite run_bind; [|exact Hrun2]. reflexivity.
        + constructor; [|done]. eapply repr_mono; [|exact Hr1].
          pose proof (mapM_store_extends vs σ1) as Hext. by rewrite Hrun2 in Hext. }
    set (a := fresh (dom σ1)).
    assert (σ1 !! a = None) as Ha by apply not_in_heap_lookup, is_fresh.
    exists (HSlice a), (<[a := ArrayObj hvs]> σ1). split.
    + cbn [store]. erewrite run_bind; [|exact Hrun]. reflexivity.
    + econstructor; [by rewrite lookup_insert_eq|].
      eapply Forall2_impl; [exact Hrepr|]. intros ? ?. apply repr_mono.
      by apply insert_subseteq.
  - assert (exists es σ1,
               map_fold (fun k x (acc : M (gmap string hval)) =>
                           es ← acc; hv ← store x; mret (<[k := hv]> es))
                        (mret ∅) m σ = (Some es, σ1) /\
               dom es = dom m /\
               forall k hv v, es !! k = Some hv -> m !! k = Some v -> repr σ1 hv v)
      as (es & σ1 & Hrun & Hdom & Hrepr).
    { clear -IH. revert σ.
      induction m as [|k x m Hk Hfk IHm] using map_first_key_ind; intros σ.
      - exists ∅, σ. rewrite map_fold_empty. split; [reflexivity|].
        split; [by rewrite !dom_empty_L|]. intros k hv v Hes. by rewrite lookup_empty in Hes.
      - apply map_Forall_insert in IH as [Hx Hm]; [|done].
        destruct (IHm Hm σ) as (es & σ1 & Hrun1 & Hdom1 & Hr1).
        destruct (Hx σ1) as (hv & σ2 & Hrun2 & Hr2).
        exists (<[k := hv]> es), σ2. rewrite map_fold_insert_first_key by done.
        split; [|split].
        + erewrite run_bind; [|exact Hrun1]. erewrite run_bind; [|exact Hrun2]. reflexivity.
        + by rewrite !dom_insert_L, Hdom1.
        + intros k' hv' v' Hes Hv. destruct (decide (k = k')) as [<-|Hne].
          * rewrite lookup_insert_eq in Hes. rewrite lookup_insert_eq in Hv.
            by simplify_eq.
          * rewrite lookup_insert_ne in Hes by done.
            rewrite lookup_insert_ne in Hv by done.
            eapply repr_mono; [|by eapply Hr1].
            pose proof (store_extends x σ1) as Hext. by rewrite Hrun2 in Hext. }
    set (a := fresh (dom σ1)).
    assert (σ1 !! a = None) as Ha by apply not_in_heap_lookup, is_fresh.
    exists (HMap (Some a)), (<[a := MapObj es]> σ1). split.
    + cbn [store]. erewrite run_bind; [|exact Hrun]. reflexivity.
    + econstructor; [by rewrite lookup_insert_eq|done|].
      intros k hv v Hes Hv. eapply repr_mono; [|by eapply Hrepr].
      by apply insert_subseteq.
Qed.

Section refinement.
Context `{Unicode}.

(** Either the element is a map, or it is stored as it is. *)
Lemma repr_item_cases ρ item v :
  repr ρ item v ->
  (exists hbm bm, item = HMap hbm /\ v = VMap bm) \/
  ((forall rec arr j, Heap.maskItem rec arr j item = store_index arr j item) /\
   maskItem v = v).
Proof. intros Hr. inversion Hr; subst; eauto; right; split; reflexivity. Qed.

Lemma slice_loop fuel rec maskedArray :
  framed rec -> refines_at fuel rec ->
  forall items vs i (ρ σ : heap) done_,
    Forall2 (repr ρ) items vs ->
    Forall (fun v => (any_size v <= fuel)%nat) vs ->
    ρ ⊆ σ -> ρ !! maskedArray = None ->
    σ !! maskedArray = Some (ArrayObj (done_ ++ replicate (length items) HNil)) ->
    length done_ = i ->
    exists σ' ρ' outs,
      forM (imap (fun j => pair (i + j)%nat) items)
           (fun '(j, item) => Heap.maskItem rec maskedArray j item) σ = (Some tt, σ') /\
      ρ' ⊆ σ' /\ adds_new σ ρ ρ' /\ ρ' !! maskedArray = None /\
      σ' !! maskedArray = Some (ArrayObj (done_ ++ outs)) /\
      Forall2 (repr ρ') outs (List.map maskItem vs).
Proof.
  intros Hframed Hrec items.
  induction items as [|item items IH]; intros vs i ρ σ done_ Hrepr Hsize Hρσ Hρa Hσa Hlen.
  - inversion Hrepr; subst. exists σ, ρ, []. simpl.
    split; [done|]. split; [done|]. split; [apply adds_new_refl|]. split; [done|].
    split; [by rewrite Hσa|constructor].
  - inversion Hrepr as [|? v ? vs' Hitem Hitems]; subst.
    inversion Hsize as [|? ? Hv Hvs]; subst.
    simpl in Hσa.
    assert (exists σ1 ρ1 out,
               Heap.maskItem rec maskedArray (length done_ + 0) item σ = (Some tt, σ1) /\
               ρ1 ⊆ σ1 /\ adds_new σ ρ ρ1 /\ ρ1 !! maskedArray = None /\
               (forall l, is_Some (σ !! l) -> is_Some (σ1 !! l)) /\
               σ1 !! maskedArray
               = Some (ArrayObj ((done_ ++ [out]) ++ replicate (length items) HNil)) /\
               repr ρ1 out (maskItem v))
      as (σ1 & ρ1 & out & Hrun & Hρσ1 & Hnew1 & Hρa1 & Hdom1 & Hσa1 & Hout).
    { assert (forall (σ0 : heap) x,
                 σ0 !! maskedArray
                 = Some (ArrayObj (done_ ++ HNil :: replicate (length items) HNil)) ->
                 store_index maskedArray (length done_ + 0) x σ0
                 = (Some tt,
                    <[maskedArray :=
                        ArrayObj ((done_ ++ [x]) ++ replicate (length items) HNil)]> σ0))
        as Hstore.
      { intros σ0 x Hσ0. erewrite run_store_index; [|exact Hσ0|].
        - do 3 f_equal. rewrite Nat.add_0_r.
          rewrite insert_app_r_alt by lia. rewrite Nat.sub_diag. simpl.
          by rewrite <- app_assoc.
        - rewrite length_app. simpl. lia. }
      destruct (repr_item_cases _ _ _ Hitem) as [(hbm & bm & -> & ->)|[Hpass Hsame]].
      - destruct (Hrec bm hbm ρ σ Hv Hρσ Hitem) as (r & σ1 & ρ1 & Hrun & Hρσ1 & Hnew1 & Hr).
        pose proof (Hframed hbm σ) as Hσσ1. rewrite Hrun in Hσσ1. simpl in Hσσ1.
        eexists _, ρ1, (HMap r). split; [|split; [|split; [|split; [|split; [|split]]]]].
        + simpl. erewrite run_bind; [|exact Hrun].
          apply Hstore. by eapply lookup_weaken.
        + apply insert_subseteq_r; [|done]. apply Hnew1; [by rewrite Hσa|done].
        + done.
        + apply Hnew1; [by rewrite Hσa|done].
        + intros l Hl. destruct (decide (l = maskedArray)) as [->|Hne].
          * by rewrite lookup_insert_eq.
          * rewrite lookup_insert_ne by done. by eapply is_Some_weaken.
        + by rewrite lookup_insert_eq.
        + exact Hr.
      - eexists _, ρ, item. split; [|split; [|split; [|split; [|split; [|split]]]]].
        + rewrite Hpass. by apply Hstore.
        + by apply insert_subseteq_r.
        + apply adds_new_refl.
        + done.
        + intros l Hl. destruct (decide (l = maskedArray)) as [->|Hne].
          * by rewrite lookup_insert_eq.
          * by rewrite lookup_insert_ne.
        + by rewrite lookup_insert_eq.
        + by rewrite Hsame. }
    destruct (IH vs' (S (length done_)) ρ1 σ1 (done_ ++ [out]))
      as (σ' & ρ' & outs & Hloop & Hρσ' & Hnew' & Hρa' & Hσa' & Houts).
    { eapply Forall2_impl; [exact Hitems|]. intros ? ?. apply repr_mono, Hnew1. }
    { done. }
    { done. }
    { done. }
    { done. }
    { rewrite length_app. simpl. lia. }
    exists σ', ρ', (out :: outs). split; [|split; [|split; [|split; [|split]]]].
    + cbn [imap forM]. erewrite run_bind; [|exact Hrun].
      rewrite <- Hloop. f_equal. apply imap_ext. intros j x _. simpl. f_equal. lia.
    + done.
    + eapply adds_new_trans; [exact Hdom1|exact Hnew1|exact Hnew'].
    + done.
    + by rewrite <- app_assoc in Hσa'.
    + simpl. constructor; [|done]. eapply repr_mono; [apply Hnew'|done].
Qed.

Lemma any_size_slice_elems vs fuel :
  (any_size (VSlice vs) <= fuel)%nat -> Forall (fun v => (any_size v <= fuel)%nat) vs.
Proof.
  intros Hsize. apply Forall_forall. intros v Hv.
  apply list_elem_of_In, any_size_elem in Hv. simpl in Hsize. lia.
Qed.

(** A value that is neither a map nor a slice is stored by its key. *)
Lemma repr_entry_cases ρ hv v :
  repr ρ hv v ->
  (exists hbm bm, hv = HMap hbm /\ v = VMap bm) \/
  (exists l vs, hv = HSlice l /\ v = VSlice vs) \/
  (forall rec result key,
      exists hv',
        Heap.maskEntry rec result key hv = store_key result key hv' /\
        repr ρ hv' (maskEntry key v)).
Proof.
  intros Hr.
  inversion Hr; subst;
    first [ by (left; eauto) | by (right; left; eauto) | right; right ];
    intros rec result key; simpl;
    destruct (isSensitiveField key); eexists; (split; [reflexivity|constructor]).
Qed.

Lemma entry_step fuel rec result key hv v (ρ σ : heap) res :
  framed rec -> refines_at fuel rec ->
  repr ρ hv v -> (any_size v <= fuel)%nat ->
  ρ ⊆ σ -> ρ !! result = None -> σ !! result = Some (MapObj res) ->
  exists σ' ρ' hv',
    Heap.maskEntry rec result key hv σ = (Some tt, σ') /\
    ρ' ⊆ σ' /\ adds_new σ ρ ρ' /\ ρ' !! result = None /\
    (forall l, is_Some (σ !! l) -> is_Some (σ' !! l)) /\
    σ' !! result = Some (MapObj (<[key := hv']> res)) /\
    repr ρ' hv' (maskEntry key v).
Proof.
  intros Hframed Hrec Hr Hsize Hρσ Hρr Hσr.
  assert (forall (σ1 : heap) x, σ ⊆ σ1 ->
            forall l, is_Some (σ !! l) ->
                      is_Some (<[result := MapObj (<[key := x]> res)]> σ1 !! l)) as Hdom.
  { intros σ1 x Hσ1 l Hl. destruct (decide (l = result)) as [->|Hne].
    - by rewrite lookup_insert_eq.
    - rewrite lookup_insert_ne by done. by eapply is_Some_weaken. }
  destruct (repr_entry_cases _ _ _ Hr)
    as [(hbm & bm & -> & ->)|[(la & vs & -> & ->)|Hscalar]].
  - (* the value is a map *)
    destruct (Hrec bm hbm ρ σ Hsize Hρσ Hr) as (r & σ1 & ρ1 & Hrun & Hρσ1 & Hnew1 & Hr1).
    pose proof (Hframed hbm σ) as Hσσ1. rewrite Hrun in Hσσ1. simpl in Hσσ1.
    assert (ρ1 !! result = None) as Hρ1r by (apply Hnew1; [by rewrite Hσr|done]).
    eexists _, ρ1, (HMap r).
    split; [|split; [|split; [|split; [|split; [|split]]]]].
    + simpl. erewrite run_bind; [|exact Hrun].
      apply run_store_key. by eapply lookup_weaken.
    + by apply insert_subseteq_r.
    + done.
    + done.
    + by apply Hdom.
    + by rewrite lookup_insert_eq.
    + by rewrite maskEntry_map.
  - (* the value is a slice *)
    inversion Hr as [| | | | |? elems ? Hla Helems| | | |]; subst.
    set (a := fresh (dom σ)).
    assert (σ !! a = None) as Hσa by apply not_in_heap_lookup, is_fresh.
    assert (ρ !! a = None) as Hρa by by eapply lookup_None_weaken.
    assert (a <> result) as Hne by (intros ->; congruence).
    set (σ1 := <[a := ArrayObj (replicate (length elems) HNil)]> σ).
    destruct (slice_loop fuel rec a Hframed Hrec elems vs 0%nat ρ σ1 [])
      as (σ2 & ρ2 & outs & Hloop & Hρσ2 & Hnew2 & Hρ2a & Hσ2a & Houts).
    { done. }
    { by apply any_size_slice_elems. }
    { by apply insert_subseteq_r. }
    { done. }
    { unfold σ1. by rewrite lookup_insert_eq. }
    { done. }
    simpl in Hσ2a.
    assert (keeps (delete a σ1)
              (forM (imap (fun j => pair (0 + j)%nat) elems)
                    (fun '(j, item) => Heap.maskItem rec a j item))) as Hkeep.
    { apply keeps_forM. intros [j item]. apply keeps_maskItem; [done|].
      apply lookup_delete_eq. }
    specialize (Hkeep σ1 (delete_subseteq _ _)). rewrite Hloop in Hkeep. simpl in Hkeep.
    assert (σ ⊆ σ2) as Hσσ2.
    { etrans; [|exact Hkeep]. unfold σ1. rewrite delete_insert_id by done. done. }
    assert (ρ2 !! result = None) as Hρ2r.
    { apply Hnew2; [|done]. unfold σ1. rewrite lookup_insert_ne by done. by rewrite Hσr. }
    exists (<[result := MapObj (<[key := HSlice a]> res)]> σ2),
           (<[a := ArrayObj outs]> ρ2), (HSlice a).
    split; [|split; [|split; [|split; [|split; [|split]]]]].
    + simpl. erewrite run_bind; [|by eapply run_read_array, lookup_weaken].
      erewrite run_bind; [|reflexivity].
      erewrite run_bind; [|exact Hloop].
      apply run_store_key. by eapply lookup_weaken.
    + apply insert_subseteq_l.
      * rewrite lookup_insert_ne by done. done.
      * by apply insert_subseteq_r.
    + split.
      * etrans; [apply Hnew2|]. by apply insert_subseteq.
      * intros l Hl Hρl.
        assert (a <> l) as Hal by (intros ->; rewrite Hσa in Hl; by destruct Hl).
        rewrite lookup_insert_ne by done.
        apply Hnew2; [|done]. unfold σ1. by rewrite lookup_insert_ne.
    + by rewrite lookup_insert_ne.
    + by apply Hdom.
    + by rewrite lookup_insert_eq.
    + rewrite maskEntry_slice. econstructor; [by rewrite lookup_insert_eq|].
      eapply Forall2_impl; [exact Houts|]. intros ? ?. apply repr_mono.
      by apply insert_subseteq.
  - (* any other value *)
    destruct (Hscalar rec result key) as (hv' & -> & Hr').
    eexists _, ρ, hv'.
    split; [|split; [|split; [|split; [|split; [|split]]]]].
    + by apply run_store_key.
    + by apply insert_subseteq_r.
    + apply adds_new_refl.
    + done.
    + by apply Hdom.
    + by rewrite lookup_insert_eq.
    + done.
Qed.

Lemma map_loop fuel rec result (m : gmap string any) :
  framed rec -> refines_at fuel rec ->
  forall kvs (ρ σ : heap) res,
    NoDup kvs.*1 ->
    Forall (fun kv => exists v, m !! kv.1 = Some v /\ repr ρ kv.2 v /\
                                (any_size v <= fuel)%nat) kvs ->
    ρ ⊆ σ -> ρ !! result = None -> σ !! result = Some (MapObj res) ->
    exists σ' ρ' res',
      forM kvs (fun '(key, val) => Heap.maskEntry rec result key val) σ = (Some tt, σ') /\
      ρ' ⊆ σ' /\ adds_new σ ρ ρ' /\ ρ' !! result = None /\
      σ' !! result = Some (MapObj res') /\
      (forall k, k ∉ kvs.*1 -> res' !! k = res !! k) /\
      (forall k hv, (k, hv) ∈ kvs ->
         exists v hv', m !! k = Some v /\ res' !! k = Some hv' /\ repr ρ' hv' (maskEntry k v)).
Proof.
  intros Hframed Hrec kvs.
  induction kvs as [|[key hv] kvs IH]; intros ρ σ res Hnodup Hkvs Hρσ Hρr Hσr.
  - exists σ, ρ, res. simpl.
    split; [done|]. split; [done|]. split; [apply adds_new_refl|]. split; [done|].
    split; [done|]. split; [done|]. intros k hv' Hin. by apply elem_of_nil in Hin.
  - inversion Hkvs as [|? ? (v & Hm & Hr & Hsize) Hrest]; subst. simpl in *.
    apply NoDup_cons in Hnodup as [Hkey Hnodup].
    destruct (entry_step fuel rec result key hv v ρ σ res)
      as (σ1 & ρ1 & hv1 & Hrun & Hρσ1 & Hnew1 & Hρ1r & Hdom1 & Hσ1r & Hr1); try done.
    destruct (IH ρ1 σ1 (<[key := hv1]> res))
      as (σ' & ρ' & res' & Hloop & Hρσ' & Hnew' & Hρ'r & Hσ'r & Hother & Hthese); try done.
    { eapply Forall_impl; [exact Hrest|]. intros [k x] (v' & ? & ? & ?). simpl in *.
      exists v'. split; [done|]. split; [|done]. eapply repr_mono; [apply Hnew1|done]. }
    exists σ', ρ', res'.
    split; [|split; [|split; [|split; [|split; [|split]]]]].
    + erewrite run_bind; [|exact Hrun]. exact Hloop.
    + done.
    + eapply adds_new_trans; [exact Hdom1|exact Hnew1|exact Hnew'].
    + done.
    + done.
    + intros k Hk. apply not_elem_of_cons in Hk as [Hne Hk].
      rewrite Hother by done. by rewrite lookup_insert_ne.
    + intros k x [[= -> ->]|Hin]%elem_of_cons.
      * exists v, hv1. split; [done|]. split.
        -- rewrite Hother by done. by rewrite lookup_insert_eq.
        -- eapply repr_mono; [apply Hnew'|done].
      * by apply (Hthese k x).
Qed.

(** The run on the heap computes [maskFieldMap]: given fuel for the size
    of the body, it ends, and the map it returns holds the masked body. *)
Lemma maskFieldMap_refines_at fuel : refines_at fuel (Heap.maskFieldMap fuel).
Proof.
  induction fuel as [|fuel IH]; intros bm hbm ρ σ Hsize Hρσ Hr.
  { destruct bm as [?|]; simpl in Hsize; lia. }
  inversion Hr as [| | | | | |E1 E2|l entries m Hl Hdom Hentries| |]; subst.
  { exists None, σ, ρ. split; [done|]. split; [done|]. split; [apply adds_new_refl|done]. }
  assert (forall k, is_Some (entries !! k) <-> is_Some (m !! k)) as Hem.
  { intros k. by rewrite <- !elem_of_dom, Hdom. }
  set (result := fresh (dom σ)).
  assert (σ !! result = None) as Hσr by apply not_in_heap_lookup, is_fresh.
  assert (ρ !! result = None) as Hρr by by eapply lookup_None_weaken.
  destruct (map_loop fuel (Heap.maskFieldMap fuel) result m (maskFieldMap_framed fuel) IH
              (map_to_list entries) ρ (<[result := MapObj ∅]> σ) ∅)
    as (σ' & ρ' & res' & Hloop & Hρσ' & Hnew' & Hρ'r & Hσ'r & Hother & Hthese).
  { apply NoDup_fst_map_to_list. }
  { apply Forall_forall. intros [k hv] Hin%elem_of_map_to_list. simpl.
    assert (is_Some (m !! k)) as [v Hv] by (apply Hem; by eexists).
    exists v. split; [done|]. split; [by eapply Hentries|].
    apply any_size_entry in Hv. simpl in Hsize. lia. }
  { by apply insert_subseteq_r. }
  { done. }
  { by rewrite lookup_insert_eq. }
  exists (Some result), σ', (<[result := MapObj res']> ρ').
  split; [|split; [|split]].
  - simpl. erewrite run_bind; [|by eapply run_read_map, lookup_weaken].
    erewrite run_bind; [|reflexivity].
    erewrite run_bind; [|exact Hloop]. reflexivity.
  - by apply insert_subseteq_l.
  - split.
    + etrans; [apply Hnew'|]. by apply insert_subseteq.
    + intros l' Hl' Hρl'.
      assert (l' <> result) as Hne by (intros ->; rewrite Hσr in Hl'; by destruct Hl').
      rewrite lookup_insert_ne by done.
      apply Hnew'; [|done]. by rewrite lookup_insert_ne.
  - simpl. econstructor; [by rewrite lookup_insert_eq| |].
    + apply set_eq. intros k.
      rewrite !elem_of_dom, lookup_fold_insert, fmap_is_Some, <- (Hem k).
      destruct (entries !! k) as [hv|] eqn:Hk.
      * apply elem_of_map_to_list, Hthese in Hk as (v & hv' & Hv & Hres & _).
        rewrite Hres. split; eauto.
      * rewrite Hother, lookup_empty; [done|].
        intros ((k' & hv) & -> & Hin%elem_of_map_to_list)%list_elem_of_fmap.
        simpl in Hk. congruence.
    + intros k hv' pv Hres Hpv. rewrite lookup_fold_insert in Hpv.
      destruct (m !! k) as [v|] eqn:Hv; [|done]. injection Hpv as <-.
      assert (is_Some (entries !! k)) as [hv Hk] by (apply Hem; by eexists).
      apply elem_of_map_to_list, Hthese in Hk as (v2 & hv2 & Hv2 & Hres2 & Hr2).
      assert (v2 = v) as -> by congruence. assert (hv2 = hv') as -> by congruence.
      eapply repr_mono; [|exact Hr2]. by apply insert_subseteq.
Qed.

(** X20: the run of [maskFieldMap] on the heap computes [maskFieldMap]:
    on a map that the heap unfolds to a body, it ends with fuel for the size
    of the body, and returns a map that unfolds to the masked body. *)
Theorem maskFieldMap_refines bodyMap hbody (σ : heap) :
  repr σ (HMap hbody) (VMap bodyMap) ->
  exists r σ',
    Heap.maskFieldMap (any_size (VMap bodyMap)) hbody σ = (Some r, σ') /\
    repr σ' (HMap r) (VMap (maskFieldMap bodyMap)).
Proof.
  intros Hr.
  destruct (maskFieldMap_refines_at (any_size (VMap bodyMap)) bodyMap hbody σ σ)
    as (r & σ' & ρ' & Hrun & Hρσ' & _ & Hr'); try done.
  exists r, σ'. split; [done|]. by eapply repr_mono.
Qed.

(** X21: the run of [maskField] on the heap computes [maskField]: on a body that
    the heap unfolds, it ends, given fuel enough, and returns what unfolds
    to the masked body. *)
Theorem maskField_refines `{JSON} body hbody (σ : heap) :
  repr σ hbody body ->
  exists fuel r σ',
    Heap.maskField fuel hbody σ = (Some r, σ') /\ repr σ' r (maskField body).
Proof.
  assert (forall bm hbm (σ1 : heap),
             repr σ1 (HMap hbm) (VMap bm) ->
             exists fuel r σ',
               (r ← Heap.maskFieldMap fuel hbm; mret (HMap r)) σ1 = (Some r, σ') /\
               repr σ' r (VMap (maskFieldMap bm))) as Hmap.
  { intros bm hbm σ1 Hr.
    destruct (maskFieldMap_refines_at (any_size (VMap bm)) bm hbm σ1 σ1)
      as (r & σ' & ρ' & Hrun & Hρσ' & _ & Hr'); try done.
    exists (any_size (VMap bm)), (HMap r), σ'. split; [|by eapply repr_mono].
    erewrite run_bind; [|exact Hrun]. reflexivity. }
  intros Hr. inversion Hr; subst;
    try (exists 0%nat; eexists _, σ; split; [reflexivity|exact Hr]).
  - (* the body is bytes *)
    unfold Heap.maskField, maskField. case_decide.
    { exists 0%nat. eexists _, σ. split; [reflexivity|constructor]. }
    destruct (Unmarshal b) as [decoded|].
    + destruct (store_repr (VMap decoded) σ) as (hv & σ1 & Hrun & Hr1).
      inversion Hr1; subst.
      * destruct (Hmap None None σ1) as (fuel & r & σ' & Hrun' & Hr'); [constructor|].
        exists fuel, r, σ'. split; [|done].
        erewrite run_bind; [|exact Hrun]. exact Hrun'.
      * destruct (Hmap (Some m) (Some l) σ1) as (fuel & r & σ' & Hrun' & Hr'); [done|].
        exists fuel, r, σ'. split; [|done].
        erewrite run_bind; [|exact Hrun]. exact Hrun'.
    + exists 0%nat. eexists _, σ. split; [reflexivity|constructor].
  - apply (Hmap None None σ). constructor.
  - apply (Hmap (Some m) (Some l) σ). done.
Qed.
End refinement.

(** [login_heap] unfolds to [login_body] at address 1. *)
Example repr_login_heap : repr login_heap (HMap (Some 1%positive)) (VMap login_body).
Proof.
  assert (repr login_heap (HMap (Some 3%positive))
               (VMap (Some {[ "token" := VString "abc" ]}))) as Hinner.
  { eapply repr_map; [reflexivity|by rewrite !dom_singleton_L|].
    intros k hv v [<- <-]%lookup_singleton_Some [_ <-]%lookup_singleton_Some.
    constructor. }
  eapply repr_map; [reflexivity| |].
  - by rewrite !dom_insert_L, !dom_singleton_L.
  - intros k hv v Hk Hv.
    apply lookup_insert_Some in Hk as [[<- <-]|[Hne Hk]].
    + rewrite lookup_insert_eq in Hv. injection Hv as <-. constructor.
    + apply lookup_singleton_Some in Hk as [<- <-].
      rewrite lookup_insert_ne, lookup_singleton_eq in Hv by done. injection Hv as <-.
      eapply repr_slice; [reflexivity|]. repeat constructor. exact Hinner.
Qed.

(** * Further properties *)

(** ** Masking *)

Section masking_extra.
Context `{Unicode}.

Lemma maskFieldMap_Some entries :
  maskFieldMap (Some entries)
  = Some (map_fold (fun key val result => <[key := maskEntry key val]> result) ∅ entries).
Proof. reflexivity. Qed.

(** X1: the map that [maskFieldMap] returns does not depend on the order
    in which [range] yields the entries of the input: the loop run over
    any ordering of the entries builds the same map. *)
Theorem maskFieldMap_any_order (m : gmap string any) (entries : list (string * any)) :
  entries ≡ₚ map_to_list m ->
  maskFieldMap (Some m) = Some (maskFieldMap_loop entries).
Proof.
  intros Hperm. rewrite maskFieldMap_Some. f_equal.
  unfold maskFieldMap_loop. rewrite <- fold_left_rev_right, map_fold_foldr.
  set (step := fun (entry : string * any) (result : gmap string any) =>
                 <[entry.1 := maskEntry entry.1 entry.2]> result).
  transitivity (foldr step ∅ (map_to_list m)).
  { apply foldr_ext; [|done..]. by intros [key val] result. }
  apply (foldr_permutation eq step ∅).
  - intros j1 [k1 x1] j2 [k2 x2] b Hj H1 H2. unfold step. simpl.
    apply insert_insert_ne. intros ->. apply Hj.
    eapply NoDup_lookup; [apply (NoDup_fst_map_to_list m)| |]; rewrite list_lookup_fmap.
    + by rewrite H1.
    + by rewrite H2.
  - rewrite <- Hperm. apply Permutation_rev.
Qed.

(** The sum behind [any_size] of a map, entry by entry. *)
Lemma any_size_fold_insert (m : gmap string any) k x :
  m !! k = None ->
  map_fold (fun _ x n => (any_size x + n)%nat) 0%nat (<[k := x]> m)
  = (any_size x + map_fold (fun _ x n => (any_size x + n)%nat) 0%nat m)%nat.
Proof.
  intros Hk. apply (map_fold_insert_L (fun _ x n => (any_size x + n)%nat)); [|done].
  intros. lia.
Qed.

Lemma any_size_maskEntry key val : any_size (maskEntry key val) = any_size val.
Proof.
  revert key. induction val as [| | | | |l IH| |entries IH| |] using any_ind';
    intros key; try (simpl; by destruct (isSensitiveField key)).
  - rewrite maskEntry_slice. simpl. do 2 f_equal.
    rewrite List.map_map. apply map_ext_Forall.
    eapply Forall_impl; [exact IH|]. intros x Hx. simpl in Hx.
    destruct x as [| | | | | |v| |]; try reflexivity.
    specialize (Hx key). by rewrite maskEntry_map in Hx.
  - rewrite maskEntry_map, maskFieldMap_Some. simpl. f_equal.
    induction entries as [|k x m Hk Hfk IHm] using map_first_key_ind.
    + by rewrite !map_fold_empty.
    + apply map_Forall_insert in IH as [Hx Hm]; [|done].
      rewrite (map_fold_insert_first_key _ _ m k x) by done.
      rewrite !any_size_fold_insert; [|done|].
      * by rewrite Hx, (IHm Hm).
      * by rewrite lookup_fold_insert, Hk.
Qed.

(** X2: masking keeps the shape of a body: a nil map stays nil, the masked
    map has the keys of the input and no other, and the masked value has as
    many nodes as the input. *)
Theorem maskFieldMap_shape (bodyMap : gomap) :
  (maskFieldMap bodyMap = None <-> bodyMap = None) /\
  (forall key, is_Some (index (maskFieldMap bodyMap) key) <-> is_Some (index bodyMap key)) /\
  any_size (VMap (maskFieldMap bodyMap)) = any_size (VMap bodyMap).
Proof.
  split; [|split].
  - by destruct bodyMap.
  - intros key. rewrite index_maskFieldMap. apply fmap_is_Some.
  - rewrite <- (maskEntry_map ""). apply any_size_maskEntry.
Qed.

Lemma masked_maskEntry key val : masked_entry key (maskEntry key val).
Proof.
  revert key. induction val as [| | | | |l IH| |entries IH| |] using any_ind';
    intros key;
    try (simpl; apply masked_scalar;
         [by destruct (isSensitiveField key)
         |by intros ->]).
  - rewrite maskEntry_slice. apply masked_in_slice. intros itemMap Hin.
    apply in_map_iff in Hin as (item & Hitem & Hin).
    rewrite Forall_forall in IH. specialize (IH item (proj2 (list_elem_of_In _ _) Hin) key).
    destruct item as [| | | | | |v| |]; try discriminate.
    simpl in Hitem. injection Hitem as <-.
    rewrite maskEntry_map in IH. by inversion IH.
  - apply masked_in_map. constructor.
  - rewrite maskEntry_map, maskFieldMap_Some. apply masked_in_map, masked_entries.
    intros k x Hx. rewrite lookup_fold_insert in Hx.
    destruct (entries !! k) as [y|] eqn:Hy; [|done]. injection Hx as <-.
    by apply (IH k y).
Qed.

(** X3: after masking, no entry with a sensitive key holds anything but a
    mapping, a sequence or the mask, at any level that masking visits. *)
Theorem maskFieldMap_masked (bodyMap : gomap) : masked_map (maskFieldMap bodyMap).
Proof.
  pose proof (masked_maskEntry "" (VMap bodyMap)) as Hm.
  rewrite maskEntry_map in Hm. by inversion Hm.
Qed.


End masking_extra.


Section masking_order_example.
#[local] Existing Instance Stub.unicode.

Lemma maskFieldMap_any_order_witness :
  maskFieldMap (Some {[ "password" := VString "secret"; "user" := VString "ann" ]})
  = Some (maskFieldMap_loop [("user", VString "ann"); ("password", VString "secret")]).
Proof.
  apply maskFieldMap_any_order. vm_compute.
  first [ reflexivity | apply perm_swap ].
Defined.
End masking_order_example.

(** X23: for a key of ASCII bytes, [isSensitiveField] answers true exactly
    when the key, its letters lowered, is one of the six names of the
    policy: the case of the letters does not matter, and no other key
    matches, whatever it contains. *)
Theorem isSensitiveField_ascii `{Unicode} (key : string) :
  isASCII key = true ->
  isSensitiveField key = true
  <-> In (lowerASCII key)
         ["password"; "license"; "license_code"; "token"; "access_token"; "refresh_token"].
Proof.
  intros Hascii. unfold isSensitiveField, ToLower. rewrite Hascii.
  set (k := lowerASCII key).
  assert (is_Some (SENSITIVE_ATTR !! k)
          <-> In k ["password"; "license"; "license_code"; "token"; "access_token";
                    "refresh_token"]) as Hdom.
  { rewrite <- elem_of_dom. unfold SENSITIVE_ATTR.
    rewrite !dom_insert_L, dom_singleton_L. rewrite !elem_of_union, !elem_of_singleton.
    simpl. intuition. }
  rewrite <- Hdom. destruct (SENSITIVE_ATTR !! k); split;
    first [ done | by eauto | by intros [? ?] ].
Qed.

Section policy_example.
#[local] Existing Instance Stub.unicode.

Lemma isSensitiveField_ascii_witness :
  isSensitiveField "Access_Token" = true
  <-> In (lowerASCII "Access_Token")
         ["password"; "license"; "license_code"; "token"; "access_token"; "refresh_token"].
Proof. apply isSensitiveField_ascii. reflexivity. Defined.
End policy_example.

(** ** Payload fields *)


Section payload.
Context `{Unicode} `{JSON}.

(** X5: [toJSON] is idempotent: what it returns for a string, the decoded
    object or the string itself, it returns unchanged. *)
Theorem toJSON_idempotent (object : any) : toJSON (toJSON object) = toJSON object.
Proof.
  destruct object as [| | |w| | | | |]; try reflexivity.
  destruct (decide (w = "")) as [->|Hw]; [reflexivity|].
  assert (toJSON (VString w)
          = match Unmarshal (bytes w) with
            | Some jsonobj => VMap jsonobj
            | None => VString w
            end) as E.
  { unfold toJSON. by rewrite decide_False. }
  destruct (Unmarshal (bytes w)) as [jsonobj|]; by rewrite !E.
Qed.

End payload.

Section tdr_payload.
Context `{FastHTTP} `{Unicode} `{JSON}.

End tdr_payload.

Section TDR_payload_example.
#[local] Existing Instance Stub.unicode.
#[local] Existing Instance Stub.fasthttp.
#[local] Existing Instance login_json.

End TDR_payload_example.

(** ** Header redaction, further *)

(** X8: [removeAuth] is idempotent: redacting what it returned changes
    nothing. *)
Theorem removeAuth_idempotent `{FastHTTP} (header : iface) :
  removeAuth (removeAuth header) = removeAuth header.
Proof.
  destruct header as [h|h|v]; [reflexivity| |reflexivity].
  unfold removeAuth. f_equal. apply map_eq. intros name.
  rewrite !lookup_fold_http_Del.
  by destruct (existsb _ SENSITIVE_HEADER).
Qed.

(** X9: on an [http.Header], [removeAuth] works in place: it returns the
    header it was given, and it is that header, the caller's, that has lost
    the three names; no other header changes. *)
Theorem removeAuth_http_in_place `{FastHTTP} (header : loc) (σ : gmap loc HttpHeaderMap)
    (h : HttpHeaderMap) :
  σ !! header = Some h ->
  exists h' : HttpHeaderMap,
    removeAuth (HttpHeader h) = HttpHeader h' /\
    removeAuth_http header σ = (header, <[header := h']> σ) /\
    (forall name, In name SENSITIVE_HEADER -> h' !! name = None).
Proof.
  intros Hh. eexists. split; [reflexivity|].
  assert (forall names (σ0 : gmap loc HttpHeaderMap) h0,
             σ0 !! header = Some h0 ->
             fold_left (fun σ val => alter (http_Del val) header σ) names σ0
             = <[header := fold_left (fun h val => http_Del val h) names h0]> σ0) as Hfold.
  { induction names as [|val names IH]; intros σ0 h0 Hh0; simpl.
    - by rewrite insert_id.
    - rewrite (IH _ (http_Del val h0)) by by rewrite lookup_alter_eq, Hh0.
      apply map_eq. intros l. destruct (decide (l = header)) as [->|Hne].
      + by rewrite !lookup_insert_eq.
      + by rewrite !lookup_insert_ne, lookup_alter_ne. }
  split; [unfold removeAuth_http; by rewrite (Hfold _ _ h)|].
  intros name Hname. rewrite lookup_fold_http_Del.
  assert (existsb (fun s => String.eqb (CanonicalMIMEHeaderKey s) name) SENSITIVE_HEADER
          = true) as ->; [|done].
  apply existsb_exists. exists name. split; [done|].
  simpl in Hname. destruct Hname as [<-|[<-|[<-|[]]]]; reflexivity.
Qed.

Section removeAuth_http_example.
#[local] Existing Instance Stub.fasthttp.

Lemma removeAuth_http_in_place_witness :
  exists h' : HttpHeaderMap,
    removeAuth (HttpHeader bearer_header) = HttpHeader h' /\
    removeAuth_http 1%positive {[ 1%positive := bearer_header ]}
    = (1%positive, <[1%positive := h']> {[ 1%positive := bearer_header ]}) /\
    (forall name, In name SENSITIVE_HEADER -> h' !! name = None).
Proof.
  apply (removeAuth_http_in_place 1%positive {[ 1%positive := bearer_header ]} bearer_header).
  vm_compute. reflexivity.
Defined.
End removeAuth_http_example.

(** ** Context keys *)

Lemma populateFieldFromContext_slot_fields `{FastHTTP} (ctx : Context) :
  populateFieldFromContext ctx
  = slot_fields ctx "traceId" ++ slot_fields ctx "srcIP"
    ++ slot_fields ctx "port" ++ slot_fields ctx "path".
Proof.
  unfold populateFieldFromContext, slot_fields, slot_value,
    TraceIDKey, SrcIPKey, PortKey, PathKey.
  cbn [omap list_omap head].
  repeat match goal with
         | |- context [nonEmptyString ?v] => destruct (nonEmptyString v)
         end; reflexivity.
Qed.

Lemma slot_fields_spec `{FastHTTP} (ctx : Context) (name : string) (f : zap.Field) :
  In f (slot_fields ctx name) <->
  exists v, slot_value ctx name = Some v /\ f = zap.String name v.
Proof.
  unfold slot_fields. destruct (slot_value ctx name) as [v|]; simpl.
  - split.
    + intros [<-|[]]. by exists v.
    + intros (? & [= <-] & ->). by left.
  - split; [done|]. by intros (? & [=] & _).
Qed.

Lemma slot_value_nonempty (ctx : Context) (name v : string) :
  slot_value ctx name = Some v -> v <> "".
Proof.
  unfold slot_value. cbn [omap list_omap].
  assert (forall x, nonEmptyString x = Some v -> v <> "") as E.
  { intros [] Hx; simpl in Hx; try done. by destruct (decide _) as [|]; simplify_eq. }
  destruct (nonEmptyString (ctx (contextKey name))) eqn:E1; simpl.
  - intros [= <-]. eauto.
  - destruct (nonEmptyString (ctx (stringKey name))) eqn:E2; simpl; [|done].
    intros [= <-]. eauto.
Qed.

(** X10: a value set with one of the four setters is read back by the
    getter of the same slot, whatever the context held before (also the
    empty string), and the getters of the other three slots still return
    what they returned before. *)
Theorem context_get_set (ctx : Context) (v : string) (i j : nat)
    name set get name' set' get' :
  context_slots !! i = Some (name, set, get) ->
  context_slots !! j = Some (name', set', get') ->
  get' (set ctx v) = if decide (i = j) then (v, true) else get' ctx.
Proof.
  intros Hi Hj.
  do 4 (destruct i as [|i]; [do 4 (destruct j as [|j]; [by simplify_eq/=|]); done|]).
  done.
Qed.

(** X11: the context fields of a record are at most four, each of them is a
    string field with a value that is not empty, and their keys are a
    subsequence of traceId, srcIP, port, path: in this order, none of them
    twice. *)
Theorem populateFieldFromContext_fields `{FastHTTP} (ctx : Context) :
  (length (populateFieldFromContext ctx) <= 4)%nat
  /\ sublist (zap.Key <$> populateFieldFromContext ctx) ["traceId"; "srcIP"; "port"; "path"]
  /\ forall f, In f (populateFieldFromContext ctx) ->
       exists name v, f = zap.String name v /\ v <> "".
Proof.
  rewrite populateFieldFromContext_slot_fields. split_and!.
  - unfold slot_fields. repeat destruct (slot_value _ _); simpl; lia.
  - unfold slot_fields.
    repeat destruct (slot_value _ _); simpl;
      repeat first [ apply sublist_nil | apply sublist_skip | apply sublist_cons ].
  - intros f Hf. rewrite !in_app_iff, !slot_fields_spec in Hf.
    destruct Hf as [Hf|[Hf|[Hf|Hf]]]; destruct Hf as (v & Hv & ->);
      eexists _, v; (split; [done|]); by eapply slot_value_nonempty.
Qed.

Lemma In_populateFieldFromContext `{FastHTTP} (ctx : Context) (f : zap.Field) :
  In f (populateFieldFromContext ctx) <->
  exists name v, In name ["traceId"; "srcIP"; "port"; "path"]
    /\ slot_value ctx name = Some v /\ f = zap.String name v.
Proof.
  rewrite populateFieldFromContext_slot_fields, !in_app_iff, !slot_fields_spec.
  split.
  - intros [Hf|[Hf|[Hf|Hf]]]; destruct Hf as (v & Hv & ->);
      eexists _, v; (split; [|done]); simpl; tauto.
  - intros (name & v & Hname & Hv & ->). simpl in Hname.
    destruct Hname as [<-|[<-|[<-|[<-|[]]]]]; eauto 10.
Qed.

Lemma slot_value_WithValue (ctx : Context) (name name' v : string) :
  slot_value (WithValue ctx (contextKey name) (VString v)) name'
  = if decide (name' = name)
    then (if decide (v = "") then nonEmptyString (ctx (stringKey name)) else Some v)
    else slot_value ctx name'.
Proof.
  unfold slot_value, WithValue. cbn [omap list_omap].
  destruct (decide (name' = name)) as [->|Hne].
  - rewrite decide_True by done. rewrite (decide_False (P := stringKey name = _)) by done.
    simpl. destruct (decide (v = "")); simpl; [|done].
    by destruct (nonEmptyString (ctx (stringKey name))).
  - rewrite decide_False by congruence.
    by rewrite (decide_False (P := stringKey name' = _)) by done.
Qed.

Lemma context_slots_setter (i : nat) name set get :
  context_slots !! i = Some (name, set, get) ->
  In name ["traceId"; "srcIP"; "port"; "path"]
  /\ (forall ctx v, set ctx v = WithValue ctx (contextKey name) (VString v))
  /\ (forall ctx, get ctx = assertString (ctx (contextKey name))).
Proof.
  intros Hi.
  do 4 (destruct i as [|i]; [simplify_eq/=; split_and!; [tauto|done..]|]).
  done.
Qed.

(** X12: after one of the four setters has put a value that is not empty
    in the context, the record has the field of that slot with this value,
    and for the other slots the fields it had before; nothing else. *)
Theorem context_set_logged `{FastHTTP} (ctx : Context) (v : string) (i : nat) name set get
    (f : zap.Field) :
  context_slots !! i = Some (name, set, get) ->
  v <> "" ->
  In f (populateFieldFromContext (set ctx v)) <->
  f = zap.String name v \/ (In f (populateFieldFromContext ctx) /\ zap.Key f <> name).
Proof.
  intros (Hname & -> & _)%context_slots_setter Hv.
  rewrite !In_populateFieldFromContext. split.
  - intros (name' & w & Hname' & Hw & ->).
    rewrite slot_value_WithValue in Hw.
    destruct (decide (name' = name)) as [->|Hne].
    + rewrite decide_False in Hw by done. left. congruence.
    + right. split; [|done]. eauto.
  - intros [->|[(name' & w & Hname' & Hw & ->) Hne]]; [|simpl in Hne].
    + exists name, v. split_and!; [done| |done].
      rewrite slot_value_WithValue, decide_True by done. by rewrite decide_False.
    + exists name', w. split_and!; [done| |done].
      by rewrite slot_value_WithValue, decide_False.
Qed.

(** X13: setting the empty string with one of the four setters does not
    take the field of that slot out of the record when the context has
    a string under the plain string key of the slot: that value is logged
    then. The fields of the other slots stay. *)
Theorem context_set_empty_logged `{FastHTTP} (ctx : Context) (i : nat) name set get
    (f : zap.Field) :
  context_slots !! i = Some (name, set, get) ->
  In f (populateFieldFromContext (set ctx "")) <->
  (exists w, ctx (stringKey name) = VString w /\ w <> "" /\ f = zap.String name w)
  \/ (In f (populateFieldFromContext ctx) /\ zap.Key f <> name).
Proof.
  intros (Hname & -> & _)%context_slots_setter.
  assert (forall x w, nonEmptyString x = Some w <-> x = VString w /\ w <> "") as E.
  { intros x w. destruct x; simpl; try (split; [done|by intros [? _]]).
    destruct (decide _) as [->|]; split.
    - done.
    - intros [[= <-] ?]. done.
    - intros [= <-]. done.
    - intros [[= <-] ?]. done. }
  rewrite !In_populateFieldFromContext. split.
  - intros (name' & w & Hname' & Hw & ->).
    rewrite slot_value_WithValue in Hw.
    destruct (decide (name' = name)) as [->|Hne].
    + rewrite decide_True in Hw by done. apply E in Hw as [? ?]. left. eauto.
    + right. split; [|done]. eauto.
  - intros [(w & Hw & Hne & ->)|[(name' & w & Hname' & Hw & ->) Hne]]; simpl in Hne.
    + exists name, w. split_and!; [done| |done].
      rewrite slot_value_WithValue, !decide_True by done. by apply E.
    + exists name', w. split_and!; [done| |done].
      by rewrite slot_value_WithValue, decide_False.
Qed.

(** X14: when the getter of a slot answers a string that is not empty, the
    record has the field of the slot with exactly this string, whatever
    the plain string key of the slot holds. *)
Theorem context_get_logged `{FastHTTP} (ctx : Context) (v : string) (i : nat) name set get
    (f : zap.Field) :
  context_slots !! i = Some (name, set, get) ->
  get ctx = (v, true) ->
  v <> "" ->
  In f (populateFieldFromContext ctx) /\ zap.Key f = name <-> f = zap.String name v.
Proof.
  intros (Hname & _ & ->)%context_slots_setter Hget Hv.
  assert (slot_value ctx name = Some v) as Hslot.
  { unfold slot_value. cbn [omap list_omap].
    destruct (ctx (contextKey name)); simplify_eq/=.
    by rewrite decide_False. }
  rewrite In_populateFieldFromContext. split.
  - intros [(name' & w & _ & Hw & ->) Hk]. simpl in Hk. subst name'. congruence.
  - intros ->. split; [|done]. eauto.
Qed.

Section context_examples.
#[local] Existing Instance Stub.fasthttp.

Lemma context_get_set_witness :
  GetSrcIP (WithTraceID legacy_context "t-1")
  = if decide (0%nat = 1%nat) then ("t-1", true) else GetSrcIP legacy_context.
Proof.
  exact (context_get_set legacy_context "t-1" 0 1 _ _ _ _ _ _ eq_refl eq_refl).
Defined.

Lemma context_set_logged_witness :
  In (zap.String "traceId" "t-1") (populateFieldFromContext (WithTraceID legacy_context "t-1"))
  <-> zap.String "traceId" "t-1" = zap.String "traceId" "t-1"
      \/ (In (zap.String "traceId" "t-1") (populateFieldFromContext legacy_context)
          /\ zap.Key (zap.String "traceId" "t-1") <> "traceId").
Proof.
  apply (context_set_logged legacy_context "t-1" 0 "traceId" WithTraceID GetTraceID).
  - reflexivity.
  - discriminate.
Defined.

Lemma context_set_empty_logged_witness :
  In (zap.String "traceId" "t-0") (populateFieldFromContext (WithTraceID legacy_context ""))
  <-> (exists w, legacy_context (stringKey "traceId") = VString w /\ w <> ""
                 /\ zap.String "traceId" "t-0" = zap.String "traceId" w)
      \/ (In (zap.String "traceId" "t-0") (populateFieldFromContext legacy_context)
          /\ zap.Key (zap.String "traceId" "t-0") <> "traceId").
Proof.
  apply (context_set_empty_logged legacy_context 0 "traceId" WithTraceID GetTraceID).
  reflexivity.
Defined.

Lemma context_get_logged_witness :
  In (zap.String "traceId" "t-1") (populateFieldFromContext (WithTraceID legacy_context "t-1"))
  /\ zap.Key (zap.String "traceId" "t-1") = "traceId"
  <-> zap.String "traceId" "t-1" = zap.String "traceId" "t-1".
Proof.
  apply (context_get_logged (WithTraceID legacy_context "t-1") "t-1" 0
           "traceId" WithTraceID GetTraceID).
  - reflexivity.
  - reflexivity.
  - discriminate.
Defined.
End context_examples.

(** X7: the keys of a transaction record are all different, whatever the
    context and the model hold, and the record does not depend on the
    [Path] of the model: a path field comes from the context only. *)
Theorem TDR_keys `{FastHTTP} `{Unicode} `{JSON} (l : Log) (ctx : Context)
    (log : LogModel) (t : list call) :
  exists e,
    TDR l ctx log t = (Returns tt, t ++ [LogCall (loggerTDR l) e])
    /\ NoDup (zap.Key <$> fields e)
    /\ forall path,
         TDR l ctx {| CorrelationID := CorrelationID log; Header_ := Header_ log;
                      Request := Request log; StatusCode := StatusCode log;
                      Method := Method log; Path := path;
                      HttpStatus := HttpStatus log; Response := Response log;
                      ResponseTime := ResponseTime log; Error_ := Error_ log;
                      OtherData := OtherData log |} t
         = TDR l ctx log t.
Proof.
  eexists. split; [reflexivity|]. split; [|reflexivity].
  cbn [fields]. rewrite populateFieldFromContext_slot_fields.
  unfold slot_fields.
  repeat destruct (slot_value _ _); cbn [app fmap list_fmap zap.Key];
    apply (bool_decide_unpack _); vm_compute; reflexivity.
Qed.

(** ** Construction *)

Lemma length_append (s1 s2 : string) :
  String.length (s1 +:+ s2) = (String.length s1 + String.length s2)%nat.
Proof. induction s1 as [|c s1 IH]; simpl; [done|by rewrite IH]. Qed.

Lemma substring_append_l (s1 s2 : string) :
  substring 0 (String.length s1) (s1 +:+ s2) = s1.
Proof. induction s1 as [|c s1 IH]; simpl; [by destruct s2|by rewrite IH]. Qed.

Lemma substring_all (s : string) : substring 0 (String.length s) s = s.
Proof. induction s as [|c s IH]; simpl; [done|by rewrite IH]. Qed.

Lemma substring_append_r (s1 s2 : string) :
  substring (String.length s1) (String.length s2) (s1 +:+ s2) = s2.
Proof. induction s1 as [|c s1 IH]; simpl; [apply substring_all|done]. Qed.

Lemma HasSuffix_append (s suffix : string) : HasSuffix (s +:+ suffix) suffix = true.
Proof.
  unfold HasSuffix. rewrite length_append.
  rewrite bool_decide_true by lia. simpl.
  replace (String.length s + String.length suffix - String.length suffix)%nat
    with (String.length s) by lia.
  rewrite substring_append_r. apply String.eqb_refl.
Qed.

Lemma TrimSuffix_append (s suffix : string) : TrimSuffix (s +:+ suffix) suffix = s.
Proof.
  unfold TrimSuffix. rewrite HasSuffix_append, length_append.
  replace (String.length s + String.length suffix - String.length suffix)%nat
    with (String.length s) by lia.
  apply substring_append_l.
Qed.

Lemma list_ascii_of_string_append (s1 s2 : string) :
  list_ascii_of_string (s1 +:+ s2) = list_ascii_of_string s1 ++ list_ascii_of_string s2.
Proof. induction s1 as [|c s1 IH]; simpl; [done|by rewrite IH]. Qed.

Lemma log_names_differ (dir dirTDR : string) :
  dir +:+ "/system.log" <> dirTDR +:+ "/tdr.log".
Proof.
  intros E. apply (f_equal list_ascii_of_string) in E.
  rewrite !list_ascii_of_string_append in E.
  apply (f_equal (@rev ascii)) in E. rewrite !rev_app_distr in E.
  simpl in E. congruence.
Qed.

Section construction.
Context `{FastHTTP} `{OS}.

(** X15: the level of every core of both loggers is the [LogLevel] of the
    validated configuration, also when that is 0 (the value of
    [zapcore.InfoLevel]); each logger writes JSON to one rotating file, the
    system logger to [system.log] under [FileLocation] and the transaction
    logger to [tdr.log] under [FileTDRLocation], which are never the same
    file name; and standard output is a second core of both loggers
    exactly when [Stdout] is set. *)
Theorem NewLogger_cores (conf : Config) :
  let c := Validate conf in
  let loggers := (NewLogger conf).2 in
  let file p :=
    match p with
    | system_log => FileLocation c +:+ "/system.log"
    | tdr_log => FileTDRLocation c +:+ "/tdr.log"
    end in
  (forall p, exists enc rotator,
      leaves (core (loggers p))
      = (zapcore.NewJSONEncoder enc, zapcore.AddSync_file rotator, LogLevel c)
        :: (if Stdout c
            then [(zapcore.NewConsoleEncoder enc, zapcore.AddSync_Stdout, LogLevel c)]
            else [])
      /\ lumberjack.Filename rotator = file p)
  /\ file system_log <> file tdr_log
  /\ file tdr_log <> FileTDRLocation c.
Proof.
  intros c loggers file. split_and!.
  - assert ((if decide (LogLevel c = 0) then zapcore.InfoLevel else LogLevel c)
            = LogLevel c) as Hlevel.
    { destruct (decide _) as [->|]; done. }
    intros p. subst loggers. unfold NewLogger. fold c.
    rewrite Hlevel.
    destruct p, (Stdout c); simpl; eexists _, _; (split; [reflexivity|reflexivity]).
  - apply log_names_differ.
  - simpl. intros E. apply (f_equal String.length) in E.
    rewrite length_append in E. simpl in E. lia.
Qed.

(** X16: both loggers carry the same three fields app, appVer and env.
    The version is the configured [AppVer] when no version file is
    configured or the file cannot be read; otherwise it is the content of
    the file without one final newline, also when that leaves the empty
    string. *)
Theorem NewLogger_appVer (conf : Config) :
  let c := Validate conf in
  let loggers := (NewLogger conf).2 in
  exists appVer,
    (forall p, withFields (loggers p)
               = [zap.String "app" (App c); zap.String "appVer" appVer;
                  zap.String "env" (Env c)])
    /\ (VersionFilePath c = "" \/ ReadFile (VersionFilePath c) = None -> appVer = AppVer c)
    /\ (forall content, VersionFilePath c <> "" ->
          ReadFile (VersionFilePath c) = Some content ->
          (forall v, string_of_bytes content = v +:+ String "010" "" -> appVer = v)
          /\ (HasSuffix (string_of_bytes content) (String "010" "") = false ->
              appVer = string_of_bytes content)).
Proof.
  intros c loggers. subst loggers. unfold NewLogger. fold c.
  destruct (Stdout c); simpl.
  all: eexists; split_and!; [by intros []| |].
  all: destruct (decide (VersionFilePath c <> "")) as [Hp|Hp].
  all: try (intros [?|Hr]; [done|by rewrite Hr]).
  all: try (intros _; done).
  all: try (intros content ? Hr; rewrite Hr; split;
            [intros v ->; apply TrimSuffix_append
            |intros Hs; unfold TrimSuffix; by rewrite Hs]).
  all: try (intros ? ?; done).
Qed.

End construction.

Section construction_example.
#[local] Existing Instance Stub.fasthttp.

(** The version file of [TestVersionFilePath] overrides the configured
    version, without its newline, in both loggers; the transaction log goes
    to the directory of the system log. *)
Example NewLogger_version_file :
  let os := test_os [("/tmp/log/version.txt", bytes (String.append "2.0.0" (String "010" "")))] in
  let loggers := (@NewLogger _ os version_config).2 in
  withFields (loggers system_log)
  = [zap.String "app" "testapp"; zap.String "appVer" "2.0.0"; zap.String "env" "development"]
  /\ withFields (loggers tdr_log) = withFields (loggers system_log)
  /\ List.map (fun leaf => leaf.1.2) (leaves (core (loggers tdr_log)))
     = [zapcore.AddSync_file
          {| lumberjack.Filename := "/tmp/log/tdr.log"; lumberjack.MaxSize := 10;
             lumberjack.MaxBackups := 3; lumberjack.MaxAge := 7 |}].
Proof. vm_compute. repeat split. Qed.
End construction_example.

(** ** The package-level logger *)

Section singleton.
Context `{FastHTTP} {L : Type} `{!Singleton.I.LoggerInterface L}.
Variable NewLogger : Config -> L.

Lemma Singleton_state (calls : list Singleton.lifecycle) :
  fold_left (Singleton.exec NewLogger) calls Singleton.start
  = {| Singleton.once := bool_decide (is_Some (Singleton.in_force calls));
       Singleton.singleton := NewLogger <$> Singleton.in_force calls |}.
Proof.
  induction calls as [|call calls IH] using rev_ind; [done|].
  unfold Singleton.in_force in *. rewrite !fold_left_app, IH. simpl.
  destruct call as [config|]; [|done].
  destruct (fold_left _ calls None) as [cur|]; done.
Qed.

(** X18: after any calls of [Load] and [Reset], [Load] returns the logger
    that [NewLogger] built from the configuration of the first [Load]
    since the last [Reset], which is its own configuration only when
    there was none; it never returns nil, and a second [Load] changes
    nothing. *)
Theorem Load_once (calls : list Singleton.lifecycle) (config : Config) :
  let s := fold_left (Singleton.exec NewLogger) calls Singleton.start in
  let first := default config (Singleton.in_force calls) in
  (Singleton.Load NewLogger config s).1 = Some (NewLogger first)
  /\ Singleton.singleton (Singleton.Load NewLogger config s).2 = Some (NewLogger first)
  /\ forall config',
       Singleton.Load NewLogger config' (Singleton.Load NewLogger config s).2
       = (Some (NewLogger first), (Singleton.Load NewLogger config s).2).
Proof.
  intros s first. subst s first. rewrite Singleton_state.
  unfold Singleton.Load.
  by destruct (Singleton.in_force calls) as [cur|].
Qed.

(** X19: after any calls of [Load] and [Reset], the package-level functions
    do nothing when no [Load] came since the start or the last [Reset]:
    no call reaches a logger, [Sync] returns nil and [WithContext]
    returns nil. Otherwise each of them is the method of the logger that
    the first [Load] since then built. *)
Theorem package_calls (calls : list Singleton.lifecycle) :
  let s := fold_left (Singleton.exec NewLogger) calls Singleton.start in
  match Singleton.in_force calls with
  | None =>
      (forall ctx, Singleton.WithContext ctx s = None)
      /\ (forall msg fields t,
            Singleton.Debug msg fields s t = (Returns tt, t)
            /\ Singleton.Info msg fields s t = (Returns tt, t)
            /\ Singleton.Warn msg fields s t = (Returns tt, t))
      /\ (forall msg err fields t,
            Singleton.Error msg err fields s t = (Returns tt, t)
            /\ Singleton.Fatal msg err fields s t = (Returns tt, t)
            /\ Singleton.Panic msg err fields s t = (Returns tt, t))
      /\ (forall model t, Singleton.TDR model s t = (Returns tt, t))
      /\ (forall t, Singleton.Sync s t = (Returns None, t))
  | Some config =>
      let l := NewLogger config in
      (forall ctx, Singleton.WithContext ctx s = Singleton.I.WithContext l ctx)
      /\ (forall msg fields,
            Singleton.Debug msg fields s = Singleton.I.Debug l msg fields
            /\ Singleton.Info msg fields s = Singleton.I.Info l msg fields
            /\ Singleton.Warn msg fields s = Singleton.I.Warn l msg fields)
      /\ (forall msg err fields,
            Singleton.Error msg err fields s = Singleton.I.Error l msg err fields
            /\ Singleton.Fatal msg err fields s = Singleton.I.Fatal l msg err fields
            /\ Singleton.Panic msg err fields s = Singleton.I.Panic l msg err fields)
      /\ (forall model, Singleton.TDR model s = Singleton.I.TDR l model)
      /\ Singleton.Sync s = Singleton.I.Sync l
  end.
Proof.
  intros s. subst s. rewrite Singleton_state.
  destruct (Singleton.in_force calls) as [cur|]; simpl; repeat split.
Qed.

End singleton.

Section routing.
Context `{FastHTTP} `{Unicode} `{JSON} `{!Zap} `{OS}.

Lemma NewLogger_Log (conf : Config) :
  (NewLogger conf).1 = {| logger := system_log; loggerTDR := tdr_log |}.
Proof. unfold NewLogger. by destruct (Stdout (Validate conf)). Qed.

(** X17: with the [Log] that [NewLogger] returns, the system logger and the
    transaction logger are two loggers: each of [Debug], [Info], [Warn],
    [Error], [Fatal] and [Panic] gives one entry to the system logger and
    none to the transaction logger, [TDR] gives one entry to the
    transaction logger and none to the system logger, and [Sync] gives
    none to either. *)
Theorem NewLogger_routing (conf : Config) (ctx : Context) (msg : string)
    (err : error) (fs : list zap.Field) (log : LogModel) (t : list call) :
  let l := (NewLogger conf).1 in
  Forall (fun run : list call =>
            (exists e, written system_log run = written system_log t ++ [e])
            /\ written tdr_log run = written tdr_log t)
         [(Debug l ctx msg fs t).2; (Info l ctx msg fs t).2; (Warn l ctx msg fs t).2;
          (Error l ctx msg err fs t).2; (Fatal l ctx msg err fs t).2;
          (Panic l ctx msg err fs t).2]
  /\ ((exists e, written tdr_log (TDR l ctx log t).2 = written tdr_log t ++ [e])
      /\ written system_log (TDR l ctx log t).2 = written system_log t)
  /\ (written system_log (Sync l t).2 = written system_log t
      /\ written tdr_log (Sync l t).2 = written tdr_log t).
Proof.
  intros l. subst l. rewrite NewLogger_Log.
  unfold Debug, Info, Warn, Error, Fatal, Panic, TDR, Sync, zap_Log, zap_Sync, written.
  cbn [logger loggerTDR].
  repeat first [ apply Forall_cons; split | apply Forall_nil | split ];
    cbn [snd mbind IO_bind bind mret IO_ret ret];
    rewrite ?omap_app; simpl; rewrite ?app_nil_r; eauto.
  all: unfold mbind, IO_bind, bind, mret, IO_ret, ret; simpl.
  all: destruct (Sync_error system_log t); simpl; rewrite ?omap_app; simpl;
    by rewrite ?app_nil_r.
Qed.

End routing.

(** ** Masking on the heap, further *)

Lemma forM_fails {A} (xs : list A) (body : A -> M unit) (σ0 σ : heap) (x : A) :
  In x xs ->
  (forall y, keeps σ0 (body y)) ->
  (forall σ' : heap, σ0 ⊆ σ' -> fst (body x σ') = None) ->
  σ0 ⊆ σ ->
  fst (forM xs body σ) = None.
Proof.
  intros Hx Hkeeps Hfail. revert σ.
  induction xs as [|y xs IH]; intros σ Hσ; [done|].
  simpl. unfold mbind, M_bind.
  destruct (body y σ) as [[[]|] σ'] eqn:Hy; [|done].
  assert (σ0 ⊆ σ') as Hσ'.
  { pose proof (Hkeeps y σ Hσ) as Hk. by rewrite Hy in Hk. }
  destruct Hx as [->|Hx]; [|by apply IH].
  specialize (Hfail σ Hσ). by rewrite Hy in Hfail.
Qed.

Section cycle.
Context `{Unicode}.

(** X22: on a map that holds itself as one of its values, [maskFieldMap]
    does not return, whatever the fuel. *)
Theorem maskFieldMap_self_reference (fuel : nat) (σ : heap) (l : loc)
    (entries : gmap string hval) (key : string) :
  σ !! l = Some (MapObj entries) ->
  entries !! key = Some (HMap (Some l)) ->
  fst (Heap.maskFieldMap fuel (Some l) σ) = None.
Proof.
  intros Hl Hkey. revert σ Hl.
  induction fuel as [|fuel IH]; intros σ Hl; [done|].
  simpl. unfold mbind at 1, M_bind at 1, read_map. rewrite Hl.
  unfold mbind at 1, M_bind at 1, alloc.
  set (result := fresh (dom σ)).
  assert (σ !! result = None) as Hnew by apply not_in_heap_lookup, is_fresh.
  unfold mbind, M_bind.
  rewrite (surjective_pairing (forM _ _ _)).
  erewrite (forM_fails _ _ σ _ (key, HMap (Some l))); [done| | | |].
  - apply list_elem_of_In, elem_of_map_to_list, Hkey.
  - intros [k v]. apply keeps_maskEntry; [apply maskFieldMap_framed|done].
  - intros σ' Hσ'. simpl. unfold mbind, M_bind.
    rewrite (surjective_pairing (Heap.maskFieldMap fuel (Some l) σ')).
    rewrite IH; [done|]. by eapply lookup_weaken.
  - by apply insert_subseteq.
Qed.
End cycle.

Section refinement_examples.
#[local] Existing Instance Stub.unicode.
#[local] Existing Instance no_json.

Lemma maskFieldMap_refines_witness :
  exists r σ',
    Heap.maskFieldMap (any_size (VMap login_body)) (Some 1%positive) login_heap = (Some r, σ') /\
    repr σ' (HMap r) (VMap (maskFieldMap login_body)).
Proof.
  exact (maskFieldMap_refines login_body (Some 1%positive) login_heap repr_login_heap).
Defined.

Lemma maskField_refines_witness :
  exists fuel r σ',
    Heap.maskField fuel (HMap (Some 1%positive)) login_heap = (Some r, σ') /\
    repr σ' r (maskField (VMap login_body)).
Proof.
  exact (maskField_refines (VMap login_body) (HMap (Some 1%positive)) login_heap
           repr_login_heap).
Defined.

Lemma maskFieldMap_self_reference_witness :
  fst (Heap.maskFieldMap 100 (Some 1%positive) self_heap) = None.
Proof.
  apply (maskFieldMap_self_reference 100 self_heap 1%positive
           {[ "self" := HMap (Some 1%positive) ]} "self").
  - reflexivity.
  - reflexivity.
Defined.
End refinement_examples.
